(** * gobuild: shallow embedding of the server core and its properties

    The development follows the Go sources of the build service:
    - [serve.go]: [failf], [acceptsGzip], [serveGzipFile],
      [verifySumState] and the routes registered by [serve];
    - [home.go]: [serveHome];
    - the target popularity list ([xtargets]) and the toolchain manager
      ([initSDK], [ensureSDK]);
    - [resolveModuleLatest], the client of the module proxy.

    Go values are modelled as follows.  A Go [string] is a sequence of
    bytes, here a [string] of [ascii].  [int] and [int64] are [Z] with the
    64-bit two's complement wrap-around written out.  An [error] is a tree:
    a sentinel made by [errors.New], or a [fmt.Errorf] value carrying its
    message and the operands of its [%w] verbs.  Maps are [gmap]s, sets
    [gset]s.  Mutexes are not modelled: every function is described as one
    atomic step on the state its lock protects.  Calls that leave the
    process (network, file system) take their answers from an explicit
    environment and are recorded in a trace of events. *)

From stdpp Require Import base gmap sets list strings sorting pretty.
From Stdlib Require Import ZArith Lia Ascii.

Open Scope Z_scope.
Set Warnings "-clear-no-such-hyp".

(** ** Go runtime and standard library *)

Module Go.

(** A call returns normally or panics (index out of range). *)
Inductive outcome (A : Type) : Type :=
| Returns (a : A)
| Panics.
Arguments Returns {A} a.
Arguments Panics {A}.

(** [int64] arithmetic wraps around. *)
Definition wrap64 (z : Z) : Z := (z + 2 ^ 63) mod 2 ^ 64 - 2 ^ 63.

Definition int64_range (z : Z) : Prop := - 2 ^ 63 <= z < 2 ^ 63.

Definition add64 (a b : Z) : Z := wrap64 (a + b).
Definition sub64 (a b : Z) : Z := wrap64 (a - b).
Definition mul64 (a b : Z) : Z := wrap64 (a * b).

(** *** errors *)

(** [errors_New id text] is the value of one evaluation of
    [errors.New(text)]; [id] stands for the identity of the pointer it
    returns.  [fmt_Errorf msg wrapped] is the result of [fmt.Errorf]: the
    formatted message and the operands of the [%w] verbs, in order. *)
#[warnings="-register-all"]
Inductive error : Type :=
| errors_New (id : nat) (text : string)
| fmt_Errorf (msg : string) (wrapped : list error).

Definition Error (e : error) : string :=
  match e with
  | errors_New _ text => text
  | fmt_Errorf msg _ => msg
  end.

(** [errors.Is(err, target)] for a sentinel [target]: the chain of
    [Unwrap] is searched depth first for the very same pointer. *)
Fixpoint errors_Is (err : error) (target : nat) : bool :=
  match err with
  | errors_New id _ => Nat.eqb id target
  | fmt_Errorf _ wrapped =>
      (fix any (l : list error) : bool :=
         match l with
         | [] => false
         | e :: l' => errors_Is e target || any l'
         end) wrapped
  end.

(** A Go [(T, error)] result. *)
Inductive result (A : Type) : Type :=
| Ok (a : A)
| Err (e : error).
Arguments Ok {A} a.
Arguments Err {A} e.

(** *** strings *)

Definition HasPrefix (s prefix : string) : bool := String.prefix prefix s.

(** [s[n:]] for [n <= len(s)]. *)
Fixpoint slice_from (n : nat) (s : string) : string :=
  match n, s with
  | O, _ => s
  | S n', String _ s' => slice_from n' s'
  | S _, EmptyString => EmptyString
  end.

(** [strings.Split(s, sep)] for a separator of one byte, which is what
    every call in the sources passes.  The result is never empty. *)
Fixpoint Split (s : string) (sep : ascii) : list string :=
  match s with
  | EmptyString => [EmptyString]
  | String c s' =>
      if Ascii.eqb c sep then EmptyString :: Split s' sep
      else match Split s' sep with
           | x :: r => String c x :: r
           | [] => [String c EmptyString]
           end
  end.

(** The table [asciiSpace] of package strings. *)
Definition asciiSpace (c : ascii) : bool :=
  match nat_of_ascii c with
  | 9%nat | 10%nat | 11%nat | 12%nat | 13%nat | 32%nat => true
  | _ => false
  end.

(** [unicode.IsSpace] above U+007F, on the bytes of the UTF-8 encoding:
    U+0085 and U+00A0 take two bytes; U+1680, U+2000 to U+200A, U+2028,
    U+2029, U+202F, U+205F and U+3000 take three. *)
Definition space2 (c d : ascii) : bool :=
  (nat_of_ascii c =? 194)%nat &&
  ((nat_of_ascii d =? 133)%nat || (nat_of_ascii d =? 160)%nat).

Definition space3 (c d e : ascii) : bool :=
  let '(c, d, e) := (nat_of_ascii c, nat_of_ascii d, nat_of_ascii e) in
  ((c =? 225) && (d =? 154) && (e =? 128)
   || (c =? 226) && (d =? 128)
      && ((128 <=? e) && (e <=? 138) || (e =? 168) || (e =? 169) || (e =? 175))
   || (c =? 226) && (d =? 129) && (e =? 159)
   || (c =? 227) && (d =? 128) && (e =? 128))%nat.

(** The loop of [strings.TrimLeftFunc] with [unicode.IsSpace]: runes are
    decoded from the left while they are spaces; [two] and [three] tell
    the encodings of the spaces above U+007F.  A byte that starts no
    valid encoding decodes to U+FFFD, which is no space, as does every
    other rune. *)
Fixpoint trim_spaces (two : ascii → ascii → bool) (three : ascii → ascii → ascii → bool)
    (s : string) : string :=
  match s with
  | EmptyString => EmptyString
  | String c s1 =>
      if asciiSpace c then trim_spaces two three s1
      else
        match s1 with
        | EmptyString => s
        | String d s2 =>
            if two c d then trim_spaces two three s2
            else
              match s2 with
              | EmptyString => s
              | String e s3 => if three c d e then trim_spaces two three s3 else s
              end
        end
  end.

Fixpoint reverse_onto (s acc : string) : string :=
  match s with
  | EmptyString => acc
  | String c s' => reverse_onto s' (String c acc)
  end.

Definition TrimLeft_space (s : string) : string := trim_spaces space2 space3 s.

(** From the right, runes are decoded backwards
    ([utf8.DecodeLastRuneInString]): a space above U+007F is found when
    the string ends with its encoding, of which no byte but the first
    starts a rune. *)
Definition TrimRight_space (s : string) : string :=
  reverse_onto
    (trim_spaces (λ d c, space2 c d) (λ e d c, space3 c d e)
       (reverse_onto s EmptyString))
    EmptyString.

(** [strings.TrimSpace]: its two loops over ASCII bytes hand over to
    [TrimFunc] and [TrimRightFunc] with [unicode.IsSpace] at the first
    byte above 0x7f, so that the result is the string without the
    Unicode spaces at its two ends. *)
Definition TrimSpace (s : string) : string :=
  TrimRight_space (TrimLeft_space s).

(** A string between double quotes, as the verb [%q] and raw string
    literals print it (no escaping is needed for the strings used). *)
Definition quoted (s : string) : string :=
  String (ascii_of_nat 34) (s +:+ String (ascii_of_nat 34) EmptyString).

(** The order [<] of Go on strings is the order on their bytes. *)
Definition string_gt (a b : string) : Prop := String.ltb b a = true.

#[global] Instance string_gt_dec : RelDecision string_gt.
Proof. intros a b. unfold string_gt. apply _. Defined.

Definition Contains (s substr : string) : bool :=
  match String.index 0 substr s with Some _ => true | None => false end.

Definition HasSuffix_slash (s : string) : bool :=
  match String.get (String.length s - 1) s with
  | Some c => Ascii.eqb c "/" && negb (String.eqb s EmptyString)
  | None => false
  end.

Definition newline : string := String (ascii_of_nat 10) EmptyString.

(** The verb [%x] on a byte slice. *)
Definition hex_digit (n : nat) : ascii :=
  ascii_of_nat (if (n <? 10)%nat then 48 + n else 87 + n).

Fixpoint hex (s : string) : string :=
  match s with
  | EmptyString => EmptyString
  | String c s' =>
      let n := nat_of_ascii c in
      String (hex_digit (n / 16)) (String (hex_digit (n mod 16)) (hex s'))
  end.

(** *** strconv *)

Definition digit_value (c : ascii) : option Z :=
  let n := nat_of_ascii c in
  if (48 <=? n)%nat && (n <=? 57)%nat then Some (Z.of_nat n - 48) else None.

(** The digits of [strconv.ParseUint(s, 10, 64)], without the bound. *)
Fixpoint parse_digits (acc : Z) (s : string) : option Z :=
  match s with
  | EmptyString => Some acc
  | String c s' =>
      match digit_value c with
      | Some d => parse_digits (10 * acc + d) s'
      | None => None
      end
  end.

Definition ParseUint_digits (s : string) : option Z :=
  match s with
  | EmptyString => None
  | _ => parse_digits 0 s
  end.

(** [strconv.ParseInt(s, 10, 64)]: [None] stands for a non-nil error
    (syntax or range). *)
Definition ParseInt (s : string) : option Z :=
  match s with
  | EmptyString => None
  | String c s' =>
      let neg := Ascii.eqb c "-" in
      let body := if Ascii.eqb c "+" || neg then s' else s in
      match ParseUint_digits body with
      | None => None
      | Some un =>
          if negb neg && (2 ^ 63 <=? un) then None
          else if neg && (2 ^ 63 <? un) then None
          else Some (if neg then - un else un)
      end
  end.

End Go.

Import Go.

(** The three sentinels of the package, each the value of one
    [errors.New] evaluated at start-up. *)
Definition id_errRemote : nat := 0.
Definition id_errServer : nat := 1.
Definition id_errBadGoversion : nat := 2.

Definition errRemote : error := errors_New id_errRemote "remote".
Definition errServer : error := errors_New id_errServer "server error".
Definition errBadGoversion : error := errors_New id_errBadGoversion "bad goversion".

(** ** The toolchain manager *)

Module SDK.

(** A release of the catalog ([goreleases.Release]); only its [Version]
    is inspected here, the rest is kept opaque in [Files]. *)
Record Release : Type := {
  Version : string;
  Files : list string
}.

(** The state guarded by [sdk.Mutex] and [sdk.fetch.Mutex], together
    with the entries of [config.SDKDir] on disk.  In [status] a present
    entry holding a nil error is [Some None]. *)
Record state : Type := {
  installed : gset string;
  supportedList : list string;
  installedList : list string;
  status : gmap string (option error);
  disk : gset string
}.

(** What the outside world answers during one call of [ensureSDK]:
    [goreleases.ListAll], [goreleases.FindFile], [ioutil.TempDir],
    [goreleases.Fetch] and [os.Rename].  [None] is a nil error. *)
Record world : Type := {
  ListAll : result (list Release);
  FindFile : Release -> result string;
  TempDir : result string;
  Fetch : string -> string -> option error;
  Rename : string -> string -> option error
}.

(** Calls leaving the process, in the order they are made. *)
Inductive event : Type :=
| EvListAll
| EvFindFile (rel : Release)
| EvTempDir
| EvFetch (file tmpdir : string)
| EvRename (tmpdir goversion : string)
| EvRemoveAll (tmpdir : string).

(** [sdkIsSupported]: membership in [sdk.supportedList]. *)
Definition sdkIsSupported (supported : list string) (goversion : string) : bool :=
  existsb (String.eqb goversion) supported.

(** [sdkUpdateInstalledList]: the installed versions that are not
    supported, sorted in descending order. *)
Definition sdkUpdateInstalledList (s : state) : state :=
  let l := filter (λ v, sdkIsSupported (supportedList s) v = false)
                  (elements (installed s)) in
  {| installed := installed s;
     supportedList := supportedList s;
     installedList := merge_sort string_gt l;
     status := status s;
     disk := disk s |}.

(** [initSDK]: every entry of the SDK directory whose name starts with
    "go" counts as installed; [entries] is what [ioutil.ReadDir]
    returned. *)
Definition initSDK (entries : list string) : state :=
  let inst := list_to_set (filter (λ e, HasPrefix e "go" = true) entries) in
  let s := sdkUpdateInstalledList
             {| installed := inst; supportedList := []; installedList := [];
                status := ∅; disk := list_to_set entries |} in
  {| installed := installed s;
     supportedList := supportedList s;
     installedList := installedList s;
     status := ∅;
     disk := disk s |}.

(** The syntactic check at the head of [ensureSDK]: [None] when the
    version is accepted, otherwise the error returned. *)
Definition checkGoversion (goversion : string) : option error :=
  if negb (HasPrefix goversion "go") then
    Some (fmt_Errorf (Error errBadGoversion +:+ ": must start with " +:+ quoted "go")
                     [errBadGoversion])
  else if HasPrefix goversion "go1" then
    if (String.length goversion <? 4)%nat || negb (HasPrefix goversion "go1.") then
      Some (fmt_Errorf (Error errBadGoversion +:+ ": old version, must be >=go1.13")
                       [errBadGoversion])
    else
      match ParseInt (hd EmptyString (Split (slice_from 4 goversion) ".")) with
      | Some num =>
          if num <? 13 then
            Some (fmt_Errorf (Error errBadGoversion +:+ ": bad version, must be >=go1.13")
                             [errBadGoversion])
          else None
      | None =>
          Some (fmt_Errorf (Error errBadGoversion +:+ ": bad version, must be >=go1.13")
                           [errBadGoversion])
      end
  else None.

Definition set_status (goversion : string) (err : option error) (s : state) : state :=
  {| installed := installed s;
     supportedList := supportedList s;
     installedList := installedList s;
     status := <[goversion := err]> (status s);
     disk := disk s |}.

(** The body of the loop over the catalog once [rel.Version ==
    goversion]: find the archive, fetch it into a temporary directory,
    rename it into place.  The deferred [os.RemoveAll(tmpdir)] runs on
    every return after [TempDir] succeeded. *)
Definition install (w : world) (rel : Release) (goversion : string) (s : state)
  : option error * state * list event :=
  match FindFile w rel with
  | Err err =>
      let e := fmt_Errorf (Error errServer +:+ ": finding release file: " +:+ Error err)
                          [errServer] in
      (Some e, set_status goversion (Some e) s, [EvFindFile rel])
  | Ok f =>
      match TempDir w with
      | Err err =>
          let e := fmt_Errorf (Error errServer +:+ ": making tempdir for sdk: " +:+ Error err)
                              [errServer] in
          (Some e, set_status goversion (Some e) s, [EvFindFile rel; EvTempDir])
      | Ok tmpdir =>
          match Fetch w f tmpdir with
          | Some err =>
              let e := fmt_Errorf (Error errServer +:+ ": installing sdk: " +:+ Error err)
                                  [errServer] in
              (Some e, set_status goversion (Some e) s,
               [EvFindFile rel; EvTempDir; EvFetch f tmpdir; EvRemoveAll tmpdir])
          | None =>
              match Rename w tmpdir goversion with
              | Some err =>
                  let e := fmt_Errorf (Error errServer +:+ ": putting sdk in place: " +:+ Error err)
                                      [errServer] in
                  (Some e, set_status goversion (Some e) s,
                   [EvFindFile rel; EvTempDir; EvFetch f tmpdir;
                    EvRename tmpdir goversion; EvRemoveAll tmpdir])
              | None =>
                  let s1 := sdkUpdateInstalledList
                              {| installed := {[goversion]} ∪ installed s;
                                 supportedList := supportedList s;
                                 installedList := installedList s;
                                 status := status s;
                                 disk := {[goversion]} ∪ disk s |} in
                  (None, set_status goversion None s1,
                   [EvFindFile rel; EvTempDir; EvFetch f tmpdir;
                    EvRename tmpdir goversion; EvRemoveAll tmpdir])
              end
          end
      end
  end.

(** [for _, rel := range rels { if rel.Version == goversion {...} }] *)
Fixpoint find_release (rels : list Release) (goversion : string) : option Release :=
  match rels with
  | [] => None
  | rel :: rels' =>
      if String.eqb (Version rel) goversion then Some rel
      else find_release rels' goversion
  end.

Definition errNoSuchVersion : error :=
  fmt_Errorf (Error errBadGoversion +:+ ": no such version") [errBadGoversion].

Definition ensureSDK (w : world) (goversion : string) (s : state)
  : option error * state * list event :=
  match checkGoversion goversion with
  | Some e => (Some e, s, [])
  | None =>
      if bool_decide (goversion ∈ installed s) then (None, s, [])
      else
        match status s !! goversion with
        | Some err => (err, s, [])
        | None =>
            match ListAll w with
            | Err err =>
                let e := fmt_Errorf (Error errRemote +:+ ": listing known releases: " +:+ Error err)
                                    [errRemote] in
                (Some e, set_status goversion (Some e) s, [EvListAll])
            | Ok rels =>
                match find_release rels goversion with
                | Some rel =>
                    let '(r, s', tr) := install w rel goversion s in
                    (r, s', EvListAll :: tr)
                | None => (Some errNoSuchVersion, s, [EvListAll])
                end
            end
        end
  end.

(** A sequence of calls, each with the answers of the world at that
    time. *)
Fixpoint run (calls : list (world * string)) (s : state) : state :=
  match calls with
  | [] => s
  | (w, v) :: calls' => run calls' (ensureSDK w v s).1.2
  end.

(** The six ways out of [ensureSDK]. *)
Inductive exit_of (w : world) (v : string) (s : state)
  : option error → state → list event → Prop :=
| exit_refused e :
    checkGoversion v = Some e → exit_of w v s (Some e) s []
| exit_installed :
    checkGoversion v = None → v ∈ installed s → exit_of w v s None s []
| exit_remembered err :
    checkGoversion v = None → v ∉ installed s → status s !! v = Some err →
    exit_of w v s err s []
| exit_listing err e :
    checkGoversion v = None → v ∉ installed s → status s !! v = None →
    ListAll w = Err err →
    e = fmt_Errorf (Error errRemote +:+ ": listing known releases: " +:+ Error err)
                   [errRemote] →
    exit_of w v s (Some e) (set_status v (Some e) s) [EvListAll]
| exit_fetched rels rel r s1 tr :
    checkGoversion v = None → v ∉ installed s → status s !! v = None →
    ListAll w = Ok rels → find_release rels v = Some rel →
    install w rel v s = (r, s1, tr) →
    exit_of w v s r s1 (EvListAll :: tr)
| exit_absent rels :
    checkGoversion v = None → v ∉ installed s → status s !! v = None →
    ListAll w = Ok rels → find_release rels v = None →
    exit_of w v s (Some errNoSuchVersion) s [EvListAll].

(** The words of the specification about accepted identifiers: the
    identifier matches the legacy shape when it starts with "go1"; its
    leading minor version is the number between "go1." and the next
    dot. *)
Definition legacy_shape (v : string) : Prop := HasPrefix v "go1" = true.

Definition leading_minor (v : string) : option Z :=
  if HasPrefix v "go1." then
    ParseInt (hd EmptyString (Split (slice_from 4 v) "."))
  else None.

Definition acceptable (v : string) : Prop :=
  HasPrefix v "go" = true ∧
  (¬ legacy_shape v ∨ ∃ num, leading_minor v = Some num ∧ 13 <= num).

(** Errors of the fetch: they wrap [errRemote] or [errServer]. *)
Definition is_fetch_error (e : error) : bool :=
  errors_Is e id_errRemote || errors_Is e id_errServer.

(** The five ways a fetch fails: for each, the error [ensureSDK] makes
    of the answer of the world, and the calls that have left the process
    by then. *)
Inductive fetch_failure (w : world) (v : string) : error → list event → Prop :=
| failure_listing err :
    ListAll w = Err err →
    fetch_failure w v
      (fmt_Errorf (Error errRemote +:+ ": listing known releases: " +:+ Error err)
                  [errRemote])
      [EvListAll]
| failure_finding rels rel err :
    ListAll w = Ok rels → find_release rels v = Some rel →
    FindFile w rel = Err err →
    fetch_failure w v
      (fmt_Errorf (Error errServer +:+ ": finding release file: " +:+ Error err)
                  [errServer])
      [EvListAll; EvFindFile rel]
| failure_tempdir rels rel f err :
    ListAll w = Ok rels → find_release rels v = Some rel →
    FindFile w rel = Ok f → TempDir w = Err err →
    fetch_failure w v
      (fmt_Errorf (Error errServer +:+ ": making tempdir for sdk: " +:+ Error err)
                  [errServer])
      [EvListAll; EvFindFile rel; EvTempDir]
| failure_fetching rels rel f tmpdir err :
    ListAll w = Ok rels → find_release rels v = Some rel →
    FindFile w rel = Ok f → TempDir w = Ok tmpdir →
    Fetch w f tmpdir = Some err →
    fetch_failure w v
      (fmt_Errorf (Error errServer +:+ ": installing sdk: " +:+ Error err) [errServer])
      [EvListAll; EvFindFile rel; EvTempDir; EvFetch f tmpdir; EvRemoveAll tmpdir]
| failure_renaming rels rel f tmpdir err :
    ListAll w = Ok rels → find_release rels v = Some rel →
    FindFile w rel = Ok f → TempDir w = Ok tmpdir →
    Fetch w f tmpdir = None → Rename w tmpdir v = Some err →
    fetch_failure w v
      (fmt_Errorf (Error errServer +:+ ": putting sdk in place: " +:+ Error err)
                  [errServer])
      [EvListAll; EvFindFile rel; EvTempDir; EvFetch f tmpdir;
       EvRename tmpdir v; EvRemoveAll tmpdir].

(** What the state records as present is on disk. *)
Definition consistent (s : state) : Prop :=
  installed s ⊆ disk s ∧ ∀ v, status s !! v = Some None → v ∈ disk s.

(** Sample worlds: a catalog that cannot be reached, and one that lists
    go1.21.0 and whose download succeeds. *)
Definition world_down : world :=
  {| ListAll := Err (errors_New 7 "connection refused");
     FindFile := λ _, Err (errors_New 8 "no file");
     TempDir := Err (errors_New 9 "no space");
     Fetch := λ _ _, Some (errors_New 10 "no route");
     Rename := λ _ _, Some (errors_New 11 "exists") |}.

Definition world_up : world :=
  {| ListAll := Ok [ {| Version := "go1.21.0"; Files := ["go1.21.0.linux-amd64.tar.gz"] |} ];
     FindFile := λ rel, Ok (hd EmptyString (Files rel));
     TempDir := Ok "tmp-install123456";
     Fetch := λ _ _, None;
     Rename := λ _ _, None |}.

(** [time.Time] as nanoseconds since the zero time, [time.Duration] as
    [int64] nanoseconds: [t.Sub(u)] saturates. *)
Definition time_Hour : Z := 3600000000000.

Definition time_Sub (t u : Z) : Z :=
  if t - u <? - 2 ^ 63 then - 2 ^ 63
  else if 2 ^ 63 <=? t - u then 2 ^ 63 - 1
  else t - u.

(** The request to the catalog of supported releases. *)
Inductive catalog_event : Type := EvListSupported.

Definition set_supported (l : list string) (s : state) : state :=
  {| installed := installed s;
     supportedList := l;
     installedList := installedList s;
     status := status s;
     disk := disk s |}.

(** [installedSDK] at time [now]; [lastSupported] is the package
    variable [sdk.lastSupported] and [ListSupported] the answer of
    [goreleases.ListSupported] should it be asked.  The result is the
    pair returned, then the new value of [sdk.lastSupported], the new
    state and the request made.  A failure is logged and otherwise
    ignored. *)
Definition installedSDK (now : Z) (ListSupported : result (list Release))
    (lastSupported : Z) (s : state)
  : (list string * list string) * Z * state * list catalog_event :=
  if time_Hour <? time_Sub now lastSupported then
    match ListSupported with
    | Err _ => ((supportedList s, installedList s), now, s, [EvListSupported])
    | Ok rels =>
        let s1 := sdkUpdateInstalledList (set_supported (Version <$> rels) s) in
        ((supportedList s1, installedList s1), now, s1, [EvListSupported])
    end
  else ((supportedList s, installedList s), lastSupported, s, []).

(** [ensureMostRecentSDK]: the version returned and the error, then
    the new [sdk.lastSupported], the state and the two traces. *)
Definition ensureMostRecentSDK (now : Z) (ListSupported : result (list Release))
    (w : world) (lastSupported : Z) (s : state)
  : (string * option error) * Z * state * list catalog_event * list event :=
  let '(lists, last1, s1, tr1) := installedSDK now ListSupported lastSupported s in
  match lists.1 with
  | [] =>
      ((EmptyString,
        Some (fmt_Errorf (Error errServer +:+ ": no supported go versions") [errServer])),
       last1, s1, tr1, [])
  | v :: _ =>
      let '(r, s2, tr2) := ensureSDK w v s1 in
      match r with
      | Some err => ((EmptyString, Some err), last1, s2, tr1, tr2)
      | None => ((v, None), last1, s2, tr1, tr2)
      end
  end.

(** A nil entry of [status] is there only for an installed version. *)
Definition status_sound (s : state) : Prop :=
  ∀ v, status s !! v = Some None → v ∈ installed s.

End SDK.

(** ** The popularity of targets *)

Module Targets.

Record target : Type := {
  Goos : string;
  Goarch : string
}.

Definition osarch (t : target) : string := Goos t +:+ "/" +:+ Goarch t.

(** [xtargets] without its mutex.  [use] is a Go map: a missing key
    reads as 0.  [int] is taken to be 64 bits wide. *)
Record xtargets : Type := {
  use : gmap string Z;
  totalUse : Z;
  list_ : list target
}.

Definition use_of (m : gmap string Z) (k : string) : Z := default 0 (m !! k).

(** The one observable call, [t.sort()]. *)
Inductive event : Type := EvSort.

Section WithSort.

(** [sort.Slice] of the standard library, applied to a fresh slice: it
    takes the order [less] on elements and returns the sorted contents. *)
Variable sort_Slice : (target → target → bool) → list target → list target.

Definition less (m : gmap string Z) (a b : target) : bool :=
  use_of m (osarch b) <? use_of m (osarch a).

(** [sort]: a copy of the list is sorted and replaces the list. *)
Definition sort (t : xtargets) : xtargets :=
  {| use := use t;
     totalUse := totalUse t;
     list_ := sort_Slice (less (use t)) (list_ t) |}.

Definition increase (tgt : string) (t : xtargets) : xtargets * list event :=
  let t1 := {| use := <[tgt := add64 (use_of (use t) tgt) 1]> (use t);
               totalUse := add64 (totalUse t) 1;
               list_ := list_ t |} in
  if (totalUse t1 <=? 32) || (Z.rem (totalUse t1) 32 =? 0)
  then (sort t1, [EvSort])
  else (t1, []).

(** The claim as worded: the list is sorted again exactly when the
    total after the call is a multiple of 32. *)
Definition resorts_on_multiples_of_32 : Prop :=
  ∀ tgt t, EvSort ∈ (increase tgt t).2 ↔ Z.rem (totalUse (increase tgt t).1) 32 = 0.

End WithSort.

(** What [sort.Slice] promises for an order [lt]: the result is a
    rearrangement of the input in which no element is [lt] one before
    it. *)
Definition sorts (sort_Slice : (target → target → bool) → list target → list target)
    (lt : target → target → bool) (l : list target) : Prop :=
  sort_Slice lt l ≡ₚ l ∧ Sorted (λ a b, lt b a = false) (sort_Slice lt l).

(** One implementation of [sort.Slice], by merging. *)
Definition merge_sort_Slice (lt : target → target → bool) (l : list target) : list target :=
  @merge_sort target (λ a b, lt b a = false) (λ a b, bool_eq_dec (lt b a) false) l.

Definition mk (goos goarch : string) : target := {| Goos := goos; Goarch := goarch |}.

(** The package variable [targets] after [init]. *)
Definition targets_list : list target :=
  [ mk "aix" "ppc64"; mk "darwin" "386"; mk "darwin" "amd64";
    mk "dragonfly" "amd64"; mk "freebsd" "386"; mk "freebsd" "amd64";
    mk "freebsd" "arm"; mk "freebsd" "arm64"; mk "illumos" "amd64";
    mk "js" "wasm"; mk "linux" "386"; mk "linux" "amd64"; mk "linux" "arm";
    mk "linux" "arm64"; mk "linux" "mips"; mk "linux" "mips64";
    mk "linux" "mips64le"; mk "linux" "mipsle"; mk "linux" "ppc64";
    mk "linux" "ppc64le"; mk "linux" "riscv64"; mk "linux" "s390x";
    mk "netbsd" "386"; mk "netbsd" "amd64"; mk "netbsd" "arm";
    mk "netbsd" "arm64"; mk "openbsd" "386"; mk "openbsd" "amd64";
    mk "openbsd" "arm"; mk "openbsd" "arm64"; mk "plan9" "386";
    mk "plan9" "amd64"; mk "plan9" "arm"; mk "solaris" "amd64";
    mk "windows" "386"; mk "windows" "amd64"; mk "windows" "arm" ].

Definition targets : xtargets :=
  {| use := foldr (λ t m, <[osarch t := 0]> m) ∅ targets_list;
     totalUse := 0;
     list_ := targets_list |}.

(** [valid] and [get], without the mutex. *)
Definition valid (t : xtargets) (tgt : string) : bool :=
  bool_decide (is_Some (use t !! tgt)).

Definition get (t : xtargets) : list target := list_ t.

(** The observations [obs] made one after the other. *)
Definition observe (sort_Slice : (target → target → bool) → list target → list target)
    (obs : list string) (t : xtargets) : xtargets :=
  foldl (λ t tgt, (increase sort_Slice tgt t).1) t obs.

(** How often [tgt] was observed. *)
Definition observations (tgt : string) (obs : list string) : Z :=
  Z.of_nat (length (filter (λ o, o = tgt) obs)).

End Targets.

(** ** net/http *)

Module HTTP.

Record Request : Type := {
  Method : string;
  Path : string;
  Header : gmap string (list string);
  Form : gmap string (list string)
}.

(** [r.Header.Get(key)] for a key in canonical form. *)
Definition Header_Get (r : Request) (key : string) : string :=
  match Header r !! key with
  | Some (v :: _) => v
  | _ => EmptyString
  end.

(** [r.FormValue(key)], with the parsed query and body in [Form]. *)
Definition FormValue (r : Request) (key : string) : string :=
  match Form r !! key with
  | Some (v :: _) => v
  | _ => EmptyString
  end.

(** What a handler has done to its [http.ResponseWriter]: [status] is
    [None] until [WriteHeader] or the first [Write]. *)
Record ResponseWriter : Type := {
  header : gmap string string;
  status : option Z;
  body : string
}.

Definition new_writer : ResponseWriter :=
  {| header := ∅; status := None; body := EmptyString |}.

Definition Header_Set (k v : string) (w : ResponseWriter) : ResponseWriter :=
  {| header := <[k := v]> (header w); status := status w; body := body w |}.

(** A second [WriteHeader] is ignored. *)
Definition WriteHeader (code : Z) (w : ResponseWriter) : ResponseWriter :=
  match status w with
  | Some _ => w
  | None => {| header := header w; status := Some code; body := body w |}
  end.

Definition Write (data : string) (w : ResponseWriter) : ResponseWriter :=
  let w1 := WriteHeader 200 w in
  {| header := header w1; status := status w1; body := body w1 +:+ data |}.

(** [io.Copy(w, src)], and any printer that may have nothing to
    print: with no byte to copy, [Write] is not called. *)
Definition io_Copy (src : string) (w : ResponseWriter) : ResponseWriter :=
  if String.eqb src EmptyString then w else Write src w.

(** The status the client receives: 200 when the handler returned
    without writing. *)
Definition final_status (w : ResponseWriter) : Z := default 200 (status w).

Definition StatusTemporaryRedirect : Z := 307.
Definition StatusBadRequest : Z := 400.
Definition StatusNotFound : Z := 404.
Definition StatusMethodNotAllowed : Z := 405.
Definition StatusInternalServerError : Z := 500.

(** [http.Error] *)
Definition Error_ (msg : string) (code : Z) (w : ResponseWriter) : ResponseWriter :=
  Write (msg +:+ newline)
    (WriteHeader code
       (Header_Set "X-Content-Type-Options" "nosniff"
          (Header_Set "Content-Type" "text/plain; charset=utf-8" w))).

Definition NotFound (w : ResponseWriter) : ResponseWriter :=
  Error_ "404 page not found" StatusNotFound w.

(** What [http.Redirect] makes of its target before it writes it, which
    is the work of net/http and net/url: [redirect_location] is the
    target as it goes into the Location header (parsed by [url.Parse]
    and, when it names no scheme and no host, resolved against the path
    of the request, cut at its query and cleaned by [path.Clean]; then
    escaped by [hexEscapeNonASCII]); [redirect_page] is the text printed
    for a GET, with the target escaped for HTML and the text of the
    status. *)
Record redirection : Type := {
  redirect_location : Request → string → string;
  redirect_page : Request → string → Z → string
}.

(** [http.Redirect] *)
Definition Redirect (lib : redirection) (r : Request) (url : string) (code : Z)
    (w : ResponseWriter) : ResponseWriter :=
  let hadCT := bool_decide (is_Some (header w !! "Content-Type")) in
  let w1 := Header_Set "Location" (redirect_location lib r url) w in
  let w2 := if negb hadCT && (String.eqb (Method r) "GET" || String.eqb (Method r) "HEAD")
            then Header_Set "Content-Type" "text/html; charset=utf-8" w1 else w1 in
  let w3 := WriteHeader code w2 in
  if negb hadCT && String.eqb (Method r) "GET"
  then Write (redirect_page lib r url code) w3
  else w3.

(** [path.Clean] on a rooted path: empty and dot elements are dropped,
    a dot-dot element removes the element before it, if any. *)
Fixpoint clean_elements (elems acc : list string) : list string :=
  match elems with
  | [] => rev acc
  | e :: elems' =>
      if String.eqb e EmptyString || String.eqb e "." then clean_elements elems' acc
      else if String.eqb e ".." then clean_elements elems' (tail acc)
      else clean_elements elems' (e :: acc)
  end.

Definition path_Clean (p : string) : string :=
  "/" +:+ String.concat "/" (clean_elements (Split p "/") []).

(** [cleanPath] of net/http. *)
Definition cleanPath (p : string) : string :=
  if String.eqb p EmptyString then "/"
  else
    let p := if HasPrefix p "/" then p else "/" +:+ p in
    let np := path_Clean p in
    if HasSuffix_slash p && negb (String.eqb np "/") then np +:+ "/" else np.

(** The table of a [ServeMux] (as before Go 1.22, whose rules the
    later versions keep for patterns like the ones used here) whose
    patterns carry no host. *)
Fixpoint registered {H : Type} (m : list (string * H)) (pattern : string) : option H :=
  match m with
  | [] => None
  | (pat, h) :: m' => if String.eqb pat pattern then Some h else registered m' pattern
  end.

(** [mux.match]: an exact match first, then the longest pattern ending
    in a slash that is a prefix of the path. *)
Fixpoint longest_prefix {H : Type} (m : list (string * H)) (path : string)
    (best : option (string * H)) : option (string * H) :=
  match m with
  | [] => best
  | (pat, h) :: m' =>
      let better :=
        match best with
        | Some (b, _) => (String.length b <? String.length pat)%nat
        | None => true
        end in
      if HasSuffix_slash pat && HasPrefix path pat && better
      then longest_prefix m' path (Some (pat, h))
      else longest_prefix m' path best
  end.

Definition mux_match {H : Type} (m : list (string * H)) (path : string) : option H :=
  match registered m path with
  | Some h => Some h
  | None => snd <$> longest_prefix m path None
  end.

(** [mux.shouldRedirectRLocked] *)
Definition shouldRedirect {H : Type} (m : list (string * H)) (path : string) : bool :=
  match registered m path with
  | Some _ => false
  | None =>
      if String.eqb path EmptyString then false
      else match registered m (path +:+ "/") with
           | Some _ => negb (HasSuffix_slash path)
           | None => false
           end
  end.

(** What [ServeMux.Handler] selects: a permanent redirect of its own,
    its not-found handler, or a registered handler. *)
Inductive route (H : Type) : Type :=
| MovedPermanently (to : string)
| NoHandler
| Handler (h : H).
Arguments MovedPermanently {H} to.
Arguments NoHandler {H}.
Arguments Handler {H} h.

Definition mux_handler {H : Type} (m : list (string * H)) (path : string) : route H :=
  match mux_match m path with
  | Some h => Handler h
  | None => NoHandler
  end.

Definition mux_Handler {H : Type} (m : list (string * H)) (r : Request) : route H :=
  if String.eqb (Method r) "CONNECT" then
    if shouldRedirect m (Path r) then MovedPermanently (Path r +:+ "/")
    else mux_handler m (Path r)
  else
    let path := cleanPath (Path r) in
    if shouldRedirect m path then MovedPermanently (path +:+ "/")
    else if negb (String.eqb path (Path r)) then MovedPermanently path
    else mux_handler m (Path r).

End HTTP.

(** ** serve.go: error pages and gzip artifacts *)

Module Serve.
Import HTTP.

(** [failf(w, format, args...)]: [msg] is the formatted message and
    [wrapped] the operands of [%w] among [args]; [errorTemplate] renders
    the message of the error page (the template file is not part of the
    sources at hand).  The line written to the log for a server error is
    left out. *)
Definition failf (errorTemplate : string → string)
    (msg : string) (wrapped : list error) (w : ResponseWriter) : ResponseWriter :=
  let err := fmt_Errorf msg wrapped in
  let msg := Error err in
  let '(msg, status) :=
    if errors_Is err id_errServer
    then ("500 - internal server error - " +:+ msg, StatusInternalServerError)
    else ("400 - bad request - " +:+ msg, StatusBadRequest) in
  Write (errorTemplate msg)
    (WriteHeader status
       (Header_Set "X-Content-Type-Options" "nosniff"
          (Header_Set "Content-Type" "text/html; charset=utf-8" w))).

(** The loop of [acceptsGzip] over the entries [es] of the header; [t]
    is the whole list of entries, which the test on the quality indexes
    at position 1. *)
Fixpoint acceptsGzip_loop (t es : list string) : outcome bool :=
  match es with
  | [] => Returns false
  | e :: es' =>
      let e := TrimSpace e in
      let tt := Split e ";" in
      let rest :=
        match tt !! 0%nat with
        | Some tt0 => if String.eqb tt0 "gzip" then Returns true else acceptsGzip_loop t es'
        | None => Panics
        end in
      if (1 <? length tt)%nat then
        match t !! 1%nat with
        | Some t1 => if String.eqb t1 "q=0" then acceptsGzip_loop t es' else rest
        | None => Panics
        end
      else rest
  end.

Definition acceptsGzip (r : Request) : outcome bool :=
  let s := Header_Get r "Accept-Encoding" in
  let t := Split s "," in
  acceptsGzip_loop t t.

(** A gzip stream as [gzip.NewReader] and [io.Copy] see it: the header
    is rejected, or the stream decompresses to [plain], the copy ending
    with [read_err]. *)
Record gzstream : Type := {
  plain : string;
  read_err : option error
}.

(** [serveGzipFile]; [src] is the content of the stored file and
    [NewReader] stands for [gzip.NewReader]. *)
Definition serveGzipFile (errorTemplate : string → string)
    (NewReader : string → result gzstream)
    (r : Request) (path : string) (src : string) (w : ResponseWriter)
  : outcome ResponseWriter :=
  match acceptsGzip r with
  | Panics => Panics
  | Returns true => Returns (io_Copy src (Header_Set "Content-Encoding" "gzip" w))
  | Returns false =>
      match NewReader src with
      | Err err =>
          Returns (failf errorTemplate
                     (Error errServer +:+ ": decompressing " +:+ quoted path +:+ ": " +:+ Error err)
                     [errServer] w)
      | Ok gzr => Returns (io_Copy (plain gzr) w)
      end
  end.

(** The words of the specification for [acceptsGzip]: some entry of
    the header names gzip and does not carry the parameter q=0. *)
Definition entry_accepts_gzip (e : string) : bool :=
  match Split (TrimSpace e) ";" with
  | name :: params => String.eqb name "gzip" && negb (existsb (String.eqb "q=0") params)
  | [] => false
  end.

Definition lists_gzip (accept_encoding : string) : bool :=
  existsb entry_accepts_gzip (Split accept_encoding ",").

Definition request_accepting (accept_encoding : string) : Request :=
  {| Method := "GET"; Path := "/";
     Header := {[ "Accept-Encoding" := [accept_encoding] ]};
     Form := ∅ |}.

(** The no-break space U+00A0 in UTF-8. *)
Definition no_break_space : string :=
  String (ascii_of_nat 194) (String (ascii_of_nat 160) EmptyString).

(** [serveLog]; [Open] stands for [os.Open] followed by reading the
    file. *)
Definition serveLog (errorTemplate : string → string)
    (Open : string → result string) (NewReader : string → result gzstream)
    (r : Request) (p : string) (w : ResponseWriter) : outcome ResponseWriter :=
  match Open p with
  | Err err =>
      Returns (failf errorTemplate
                 (Error errServer +:+ ": open log.gz: " +:+ Error err) [errServer] w)
  | Ok src =>
      serveGzipFile errorTemplate NewReader r p src
        (Header_Set "Content-Type" "text/plain; charset=utf-8" w)
  end.

(** The number of bytes [c] in a string. *)
Fixpoint count_byte (c : ascii) (s : string) : nat :=
  match s with
  | EmptyString => 0
  | String d s' => (if Ascii.eqb d c then 1 else 0) + count_byte c s'
  end.

(** The name of an entry of the header, before its parameters. *)
Definition entry_name (e : string) : string :=
  hd EmptyString (Split (TrimSpace e) ";").

Definition has_params (e : string) : bool :=
  (0 <? count_byte ";" (TrimSpace e))%nat.

(** One turn of the loop of [acceptsGzip], once the second entry [t1]
    of the header is known. *)
Definition entry_accepted (t1 e : string) : bool :=
  if has_params e && String.eqb t1 "q=0" then false
  else String.eqb (entry_name e) "gzip".

End Serve.

(** ** The client of the module proxy *)

Module Goproxy.

Record modVersion : Type := {
  Version : string;
  Time : string
}.

(** An HTTP response: the body as [io.ReadAll] returns it. *)
Record response : Type := {
  StatusCode : Z;
  Status : string;
  Body : string;
  body_err : option error
}.

(** The outside of [resolveModuleLatest]: [module.EscapePath],
    [http.NewRequestWithContext], [http.DefaultClient.Do] and the JSON
    decoder on the body. *)
Record world : Type := {
  EscapePath : string → result string;
  NewRequest : string → option error;
  Do : string → result response;
  Decode : response → result modVersion
}.

(** The duration metric and the error counter are left out. *)
Definition resolveModuleLatest (w : world) (goproxy mod_ : string) : result modVersion :=
  match EscapePath w mod_ with
  | Err err => Err (fmt_Errorf ("bad module path: " +:+ Error err) [])
  | Ok modPath =>
      let u := goproxy +:+ modPath +:+ "/@latest" in
      match NewRequest w u with
      | Some err =>
          Err (fmt_Errorf (Error errServer +:+ ": preparing goproxy http request: " +:+ Error err)
                          [errServer])
      | None =>
          match Do w u with
          | Err err =>
              Err (fmt_Errorf (Error errServer +:+ ": http request to goproxy: " +:+ Error err)
                              [errServer])
          | Ok resp =>
              if negb (StatusCode resp =? 200) then
                let msg := match body_err resp with
                           | Some err => "reading error message: " +:+ Error err
                           | None => Body resp
                           end in
                Err (fmt_Errorf (Error errRemote +:+ ": error response from goproxy, status "
                                 +:+ Status resp +:+ ":" +:+ newline +:+ msg)
                                [errRemote])
              else
                match Decode w resp with
                | Err err =>
                    Err (fmt_Errorf (Error errRemote +:+ ": parsing json returned by goproxy: "
                                     +:+ Error err)
                                    [errRemote])
                | Ok info =>
                    if String.eqb (Version info) EmptyString then
                      Err (fmt_Errorf (Error errRemote +:+ ": empty version from goproxy")
                                      [errRemote])
                    else Ok info
                end
          end
      end
  end.

(** The claim as worded: an error of remote kind handed to [failf]
    gives status 500. *)
Definition remote_renders_500 : Prop :=
  ∀ errorTemplate msg e,
    errors_Is e id_errRemote = true →
    HTTP.final_status (Serve.failf errorTemplate msg [e] HTTP.new_writer) = 500.

(** A proxy that does not know the module. *)
Definition world_404 : world :=
  {| EscapePath := Ok;
     NewRequest := λ _, None;
     Do := λ _, Ok {| StatusCode := 404; Status := "404 Not Found";
                      Body := "not found: module lookup disabled"; body_err := None |};
     Decode := λ _, Err (errors_New 20 "unexpected end of JSON input") |}.

End Goproxy.

(** ** home.go and the routes of [serve] *)

Module Home.
Import HTTP Serve.

(** A value of type [[]string]: a window on a backing array of the
    store.  The capacity plays no part in the code modelled. *)
Record slice : Type := {
  array : nat;
  offset : nat;
  len : nat
}.

(** The elements a slice shows. *)
Definition elems (h : gmap nat (list string)) (sl : slice) : list string :=
  take (len sl) (drop (offset sl) (default [] (h !! array sl))).

(** [append([]string{}, xs...)]: the elements are copied to a backing
    array that did not exist before. *)
Definition append_fresh (h : gmap nat (list string)) (xs : list string)
  : gmap nat (list string) * slice :=
  let a := fresh (dom h) in
  (<[a := xs]> h, {| array := a; offset := 0; len := length xs |}).

(** [sl[i]] and [sl[i] = x]; [None] is the index-out-of-range panic. *)
Definition index (h : gmap nat (list string)) (sl : slice) (i : nat) : option string :=
  if (i <? len sl)%nat then
    match h !! array sl with
    | Some arr => arr !! (offset sl + i)%nat
    | None => None
    end
  else None.

Definition assign (h : gmap nat (list string)) (sl : slice) (i : nat) (x : string)
  : option (gmap nat (list string)) :=
  if (i <? len sl)%nat then
    match h !! array sl with
    | Some arr =>
        if (offset sl + i <? length arr)%nat
        then Some (<[array sl := <[(offset sl + i)%nat := x]> arr]> h)
        else None
    | None => None
    end
  else None.

(** [for i := 0; i < n/2; i++ { j := n-1-i; sl[i], sl[j] = sl[j], sl[i] }]
    with [k] iterations left. *)
Fixpoint reverse_loop (k i n : nat) (sl : slice) (h : gmap nat (list string))
  : outcome (gmap nat (list string)) :=
  match k with
  | O => Returns h
  | S k' =>
      let j := (n - 1 - i)%nat in
      match index h sl j, index h sl i with
      | Some xj, Some xi =>
          match assign h sl i xj with
          | Some h1 =>
              match assign h1 sl j xi with
              | Some h2 => reverse_loop k' (S i) n sl h2
              | None => Panics
              end
          | None => Panics
          end
      | _, _ => Panics
      end
  end.

(** The store of string slices and the package variable
    [recentBuilds.links]. *)
Record state : Type := {
  heap : gmap nat (list string);
  recentBuilds_links : slice
}.

Record config : Type := {
  VerifierKey : string;
  SignerKey : string;
  gobuildVersion : string
}.

(** The data handed to the template of the landing page; [Recents] is
    what the slice shows when the template runs. *)
Record homeArgs : Type := {
  Favicon : string;
  Recents : list string;
  args_VerifierKey : string;
  GobuildVersion : string
}.

(** The parts of the program outside the sources at hand: templates,
    embedded files, the handlers of module, build and result pages, the
    parser of request paths, and the handler of the transparency log
    ([tlogServer] is the handler that [serve] registers,
    [http.StripPrefix] applied to the server of package sumdb);
    [net_http] is the treatment of redirect targets by the library. *)
Record site : Type := {
  net_http : redirection;
  errorTemplate : string → string;
  homeTemplate : homeArgs → string * option error;
  request : Type;
  request_Sum : request → string;
  parseRequest : string → request * string * bool;
  serveModules : state → Request → ResponseWriter → state * ResponseWriter;
  serveBuild : state → Request → request → ResponseWriter → state * ResponseWriter;
  serveResult : state → Request → request → ResponseWriter → state * ResponseWriter;
  ServerPaths : list string;
  tlogServer : state → Request → ResponseWriter → state * ResponseWriter;
  fileFaviconPng : string;
  fileFaviconBuildingPng : string;
  fileFaviconErrorPng : string;
  fileGopherDanceLongGif : string;
  emptyConfigText : string
}.

(** The landing page: the branch [r.URL.Path == "/"] of [serveHome]
    once the form value m is empty. *)
Definition landing (x : site) (cfg : config) (st : state) (w : ResponseWriter)
  : outcome (state * ResponseWriter) :=
  let '(h1, recentLinks) := append_fresh (heap st) (elems (heap st) (recentBuilds_links st)) in
  let n := len recentLinks in
  match reverse_loop (n / 2) 0 n recentLinks h1 with
  | Panics => Panics
  | Returns h2 =>
      let args := {| Favicon := "favicon.ico";
                     Recents := elems h2 recentLinks;
                     args_VerifierKey := VerifierKey cfg;
                     GobuildVersion := gobuildVersion cfg |} in
      let st2 := {| heap := h2; recentBuilds_links := recentBuilds_links st |} in
      let '(out, err) := homeTemplate x args in
      let w1 := io_Copy out w in
      match err with
      | Some err =>
          Returns (st2, failf (errorTemplate x)
                          (Error errServer +:+ ": executing template: " +:+ Error err)
                          [errServer] w1)
      | None => Returns (st2, w1)
      end
  end.

(** The response of the landing page for a given list of recent
    links. *)
Definition render_home (x : site) (cfg : config) (recents : list string) (w : ResponseWriter)
  : ResponseWriter :=
  let args := {| Favicon := "favicon.ico";
                 Recents := recents;
                 args_VerifierKey := VerifierKey cfg;
                 GobuildVersion := gobuildVersion cfg |} in
  let w1 := io_Copy (homeTemplate x args).1 w in
  match (homeTemplate x args).2 with
  | Some err =>
      failf (errorTemplate x)
        (Error errServer +:+ ": executing template: " +:+ Error err) [errServer] w1
  | None => w1
  end.

(** [serveHome]; the page metrics are left out. *)
Definition serveHome (x : site) (cfg : config) (st : state) (r : Request) (w : ResponseWriter)
  : outcome (state * ResponseWriter) :=
  if negb (String.eqb (Method r) "GET") then
    Returns (st, Error_ "405 - Method Not Allowed" StatusMethodNotAllowed w)
  else if String.eqb (Path r) "/" then
    let m := FormValue r "m" in
    if negb (String.eqb m EmptyString) then
      Returns (st, Redirect (net_http x) r ("/" +:+ m) StatusTemporaryRedirect w)
    else landing x cfg st w
  else
    match Path r with
    | EmptyString => Panics
    | String _ rest =>
        match Split rest "/" !! 0%nat with
        | None => Panics
        | Some t0 =>
            if negb (Contains t0 ".") then Returns (st, NotFound w)
            else if negb (Contains (Path r) "@") then Returns (serveModules x st r w)
            else
              let '(req, hint, ok) := parseRequest x (Path r) in
              if negb ok then
                if negb (String.eqb hint EmptyString) then
                  Returns (st, Error_ ("404 - File Not Found" +:+ newline +:+ newline
                                       +:+ hint +:+ newline) StatusNotFound w)
                else Returns (st, NotFound w)
              else if String.eqb (request_Sum x req) EmptyString
              then Returns (serveBuild x st r req w)
              else Returns (serveResult x st r req w)
        end
    end.

(** The handlers registered on the mux by [serve]. *)
Inductive handler : Type :=
| HRobots
| HFavicon
| HFaviconBuilding
| HFaviconError
| HEmptyconfig
| HTlog
| HGopherDance
| HLegacy
| HHome.

Definition routes (x : site) (cfg : config) : list (string * handler) :=
  [ ("/robots.txt", HRobots);
    ("/favicon.ico", HFavicon);
    ("/favicon-building.png", HFaviconBuilding);
    ("/favicon-error.png", HFaviconError);
    ("/emptyconfig", HEmptyconfig) ]
  ++ (if String.eqb (SignerKey cfg) EmptyString then []
      else (λ path, ("/tlog" +:+ path, HTlog)) <$> ServerPaths x)
  ++ [ ("/img/gopher-dance-long.gif", HGopherDance);
       ("/m/", HLegacy);
       ("/b/", HLegacy);
       ("/r/", HLegacy);
       ("/", HHome) ].

Definition robots_txt : string :=
  "User-agent: *" +:+ newline +:+ "Disallow: /*/*" +:+ newline +:+
  "Disallow: /tlog/" +:+ newline +:+ newline +:+ "Allow: /" +:+ newline.

Definition run_handler (x : site) (cfg : config) (hd : handler)
    (st : state) (r : Request) (w : ResponseWriter) : outcome (state * ResponseWriter) :=
  match hd with
  | HRobots => Returns (st, Write robots_txt (Header_Set "Content-Type" "text/plain" w))
  | HFavicon =>
      Returns (st, Write (fileFaviconPng x) (Header_Set "Content-Type" "image/png" w))
  | HFaviconBuilding =>
      Returns (st, Write (fileFaviconBuildingPng x) (Header_Set "Content-Type" "image/png" w))
  | HFaviconError =>
      Returns (st, Write (fileFaviconErrorPng x) (Header_Set "Content-Type" "image/png" w))
  | HEmptyconfig =>
      Returns (st, io_Copy (emptyConfigText x) (Header_Set "Content-Type" "text/plain" w))
  | HTlog => Returns (tlogServer x st r w)
  | HGopherDance =>
      Returns (st, Write (fileGopherDanceLongGif x) (Header_Set "Content-Type" "image/gif" w))
  | HLegacy =>
      if (String.length (Path r) <? 2)%nat then Panics
      else Returns (st, Redirect (net_http x) r (slice_from 2 (Path r))
                          StatusTemporaryRedirect w)
  | HHome => serveHome x cfg st r w
  end.

(** [mux.ServeHTTP] on a fresh response, for a request line other than
    the asterisk form.  The redirect of the mux itself goes through
    [http.Redirect] with code 301; its target is given here by its path,
    the query being that of the request. *)
Definition ServeHTTP (x : site) (cfg : config) (st : state) (r : Request)
  : outcome (state * ResponseWriter) :=
  match mux_Handler (routes x cfg) r with
  | MovedPermanently to => Returns (st, Redirect (net_http x) r to 301 new_writer)
  | NoHandler => Returns (st, NotFound new_writer)
  | Handler hd => run_handler x cfg hd st r new_writer
  end.

(** The claim as worded: every request that is not a GET is answered
    with 405. *)
Definition non_GET_gets_405 : Prop :=
  ∀ x cfg st r, Method r ≠ "GET" →
    ∃ st' w, ServeHTTP x cfg st r = Returns (st', w) ∧
             final_status w = StatusMethodNotAllowed.

(** A site whose missing parts answer with empty pages; its redirect
    targets are clean paths of ASCII letters, which net/http writes as
    they are. *)
Definition sample_site : site :=
  {| net_http :=
       {| redirect_location := λ _ url, url;
          redirect_page := λ _ url _,
            "<a href=" +:+ quoted url +:+ ">Temporary Redirect</a>." +:+ newline +:+ newline |};
     errorTemplate := λ m, m;
     homeTemplate := λ args, (String.concat newline (Recents args), None);
     request := string;
     request_Sum := λ _, EmptyString;
     parseRequest := λ p, (p, EmptyString, true);
     serveModules := λ st _ w, (st, w);
     serveBuild := λ st _ _ w, (st, w);
     serveResult := λ st _ _ w, (st, w);
     ServerPaths := ["/latest"; "/lookup/"; "/tile/"];
     tlogServer := λ st _ w, (st, w);
     fileFaviconPng := "png";
     fileFaviconBuildingPng := "png";
     fileFaviconErrorPng := "png";
     fileGopherDanceLongGif := "gif";
     emptyConfigText := "GoProxy: https://proxy.golang.org/" |}.

Definition sample_config : config :=
  {| VerifierKey := EmptyString; SignerKey := EmptyString;
     gobuildVersion := "(no module) go1.21.0" |}.

(** Three recent builds, shown through a window on a longer array. *)
Definition sample_state : state :=
  {| heap := {[ 0%nat := ["/old"; "/a"; "/b"; "/c"] ]};
     recentBuilds_links := {| array := 0; offset := 1; len := 3 |} |}.

Definition post (path : string) : Request :=
  {| Method := "POST"; Path := path; Header := ∅; Form := ∅ |}.

Definition get (path : string) : Request :=
  {| Method := "GET"; Path := path; Header := ∅; Form := ∅ |}.

(** A site whose landing page template fails after writing its first
    bytes. *)
Definition failing_site : site :=
  {| net_http := net_http sample_site;
     errorTemplate := errorTemplate sample_site;
     homeTemplate := λ _, ("<html>", Some (errors_New 30 "template: no such field"));
     request := string;
     request_Sum := request_Sum sample_site;
     parseRequest := parseRequest sample_site;
     serveModules := serveModules sample_site;
     serveBuild := serveBuild sample_site;
     serveResult := serveResult sample_site;
     ServerPaths := ServerPaths sample_site;
     tlogServer := tlogServer sample_site;
     fileFaviconPng := fileFaviconPng sample_site;
     fileFaviconBuildingPng := fileFaviconBuildingPng sample_site;
     fileFaviconErrorPng := fileFaviconErrorPng sample_site;
     fileGopherDanceLongGif := fileGopherDanceLongGif sample_site;
     emptyConfigText := emptyConfigText sample_site |}.

Definition signed_config : config :=
  {| VerifierKey := "example.org+5f3f4b2a+AbCd";
     SignerKey := "PRIVATE+KEY+example.org+5f3f4b2a+AbCd";
     gobuildVersion := "(no module) go1.21.0" |}.

End Home.

(** ** serve.go: verification of the transparency log at start-up *)

Module SumState.
Import Serve.

(** [tlog.HashSize] *)
Definition HashSize : Z := 32.

(** An open file: its bytes, and the errors [Stat] and [ReadAt] meet,
    if any. *)
Record file : Type := {
  content : string;
  stat_err : option error;
  readat_err : option error
}.

(** [f.Stat()], reduced to [info.Size()]. *)
Definition Stat (f : file) : result Z :=
  match stat_err f with
  | Some err => Err err
  | None => Ok (Z.of_nat (String.length (content f)))
  end.

Definition io_EOF : error := errors_New 3 "EOF".

(** [f.ReadAt(buf, off)] with [len(buf) = n]: the bytes of [buf] when
    the error is nil, which needs all [n] bytes to be there. *)
Definition ReadAt (f : file) (n : nat) (off : Z) : result string :=
  if off <? 0 then Err (errors_New 4 "negative offset")
  else if (n =? 0)%nat then Ok EmptyString
  else
    match readat_err f with
    | Some err => Err err
    | None =>
        let data := String.substring (Z.to_nat off) n (content f) in
        if (String.length data <? n)%nat then Err io_EOF else Ok data
    end.

(** A file opened for reading in one go, and what closing it
    returns. *)
Record opened : Type := {
  data : string;
  close_err : option error
}.

(** What [verifySumState] calls outside of itself: [treeSize],
    [ReadRecords], [parseRecord] and [storeDir] of this program; the
    functions of package tlog; the file system; gzip, SHA-256 and
    base64. *)
Record world : Type := {
  treeSize : result Z;
  hashesFile : file;
  ReadRecords : Z → Z → result (list string);
  StoredHashCount : Z → Z;
  StoredHashIndex : Z → Z → Z;
  StoredHashes : Z → string → result (list string);
  record : Type;
  record_Sum : record → string;
  storeDir : record → string;
  parseRecord : string → result record;
  ReadFile : string → result string;
  Open : string → result opened;
  NewReader : string → result gzstream;
  sha256_Sum : string → string;
  EncodeToString : string → string
}.

Definition filepath_Join (dir name : string) : string := dir +:+ "/" +:+ name.

(** The loop comparing each hash with its 32 bytes of [buf]: the index
    of the first difference. *)
Fixpoint first_mismatch (i : nat) (hashes : list string) (buf : string) : option nat :=
  match hashes with
  | [] => None
  | h :: hashes' =>
      if String.eqb h (String.substring (i * 32) 32 buf)
      then first_mismatch (S i) hashes' buf
      else Some i
  end.

Definition errorf (msg : string) : Z * option error := (-1, Some (fmt_Errorf msg [])).

(** The check of the artifact of the last record: the recordnumber
    file, then the sum of the decompressed binary. *)
Definition verify_artifact (w : world) (numRecords lastRecordNum : Z) (rec : record w)
  : Z * option error :=
  match ReadFile w (filepath_Join (storeDir w rec) "recordnumber") with
  | Err err => errorf ("open recordnumber: " +:+ Error err)
  | Ok buf =>
      match ParseInt buf with
      | None => errorf "parse recordnumber from file: invalid syntax or out of range"
      | Some num =>
          if negb (num =? lastRecordNum) then
            errorf ("inconsistent last recordnumber " +:+ pretty num +:+ ", expected "
                    +:+ pretty lastRecordNum)
          else
            match Open w (filepath_Join (storeDir w rec) "binary.gz") with
            | Err err => errorf ("open binary.gz for verification: " +:+ Error err)
            | Ok f =>
                match NewReader w (data f) with
                | Err err => errorf ("gzip reader for binary.gz: " +:+ Error err)
                | Ok gzr =>
                    match read_err gzr with
                    | Some err => errorf ("reading binary.gz for verification: " +:+ Error err)
                    | None =>
                        let sum := "0" +:+ EncodeToString w
                                     (String.substring 0 20 (sha256_Sum w (plain gzr))) in
                        if negb (String.eqb sum (record_Sum w rec)) then
                          errorf ("latest binary.gz sum mismatch, got " +:+ sum +:+ ", expect "
                                  +:+ record_Sum w rec)
                        else
                          match close_err f with
                          | Some err => errorf ("close binary.gz: " +:+ Error err)
                          | None => (numRecords, None)
                          end
                    end
                end
            end
      end
  end.

(** [verifySumState]; the call panics when [ReadRecords] returns no
    record and no error. *)
Definition verifySumState (w : world) : outcome (Z * option error) :=
  match treeSize w with
  | Err err => Returns (errorf ("finding number of records in tlog: " +:+ Error err))
  | Ok numRecords =>
      match Stat (hashesFile w) with
      | Err err => Returns (errorf ("stat on hashes file: " +:+ Error err))
      | Ok size =>
          let hashCount := StoredHashCount w numRecords in
          if negb (mul64 hashCount HashSize =? size) then
            Returns (errorf ("inconsistent size of hashes file of " +:+ pretty size
                             +:+ " bytes for " +:+ pretty numRecords +:+ " records, should be "
                             +:+ pretty (mul64 hashCount HashSize)))
          else if numRecords =? 0 then Returns (0, None)
          else
            let lastRecordNum := sub64 numRecords 1 in
            match ReadRecords w lastRecordNum 1 with
            | Err err => Returns (errorf ("reading last record: " +:+ Error err))
            | Ok [] => Panics
            | Ok (records0 :: _) =>
                match StoredHashes w lastRecordNum records0 with
                | Err err =>
                    Returns (errorf ("calculating hashes for most recent record: "
                                     +:+ Error err))
                | Ok hashes =>
                    match ReadAt (hashesFile w) (length hashes * 32)
                                 (mul64 (StoredHashIndex w 0 lastRecordNum) HashSize) with
                    | Err err =>
                        Returns (errorf ("reading hashes for verification: " +:+ Error err))
                    | Ok buf =>
                        match first_mismatch 0 hashes buf with
                        | Some i =>
                            Returns (errorf
                              ("hash " +:+ pretty i +:+ " mismatch for last record "
                               +:+ pretty lastRecordNum +:+ ", got "
                               +:+ hex (String.substring (i * 32) 32 buf) +:+ ", expect "
                               +:+ hex (default EmptyString (hashes !! i))))
                        | None =>
                            match parseRecord w records0 with
                            | Err err =>
                                Returns (errorf ("parsing last record: " +:+ Error err))
                            | Ok rec =>
                                Returns (verify_artifact w numRecords lastRecordNum rec)
                            end
                        end
                    end
                end
            end
      end
  end.

(** The conditions of the specification for a log of [n] records,
    with unbounded integers.  The size of the hashes file: *)
Definition size_consistent (w : world) (n : Z) : Prop :=
  Stat (hashesFile w) = Ok (32 * StoredHashCount w n).

(** The hashes computed from the last record are the bytes of the
    hashes file from the place of its first stored hash. *)
Definition hashes_consistent (w : world) (n : Z) : Prop :=
  ∃ records0 rest hashes buf,
    ReadRecords w (n - 1) 1 = Ok (records0 :: rest) ∧
    StoredHashes w (n - 1) records0 = Ok hashes ∧
    ReadAt (hashesFile w) (length hashes * 32) (32 * StoredHashIndex w 0 (n - 1)) = Ok buf ∧
    ∀ i h, hashes !! i = Some h → String.substring (i * 32) 32 buf = h.

(** The recordnumber file of the last record holds [n - 1]. *)
Definition recordnumber_consistent (w : world) (n : Z) : Prop :=
  ∃ records0 rest rec buf,
    ReadRecords w (n - 1) 1 = Ok (records0 :: rest) ∧
    parseRecord w records0 = Ok rec ∧
    ReadFile w (filepath_Join (storeDir w rec) "recordnumber") = Ok buf ∧
    ParseInt buf = Some (n - 1).

(** The sum of the last record is that of its decompressed binary. *)
Definition sum_consistent (w : world) (n : Z) : Prop :=
  ∃ records0 rest rec f gzr,
    ReadRecords w (n - 1) 1 = Ok (records0 :: rest) ∧
    parseRecord w records0 = Ok rec ∧
    Open w (filepath_Join (storeDir w rec) "binary.gz") = Ok f ∧
    NewReader w (data f) = Ok gzr ∧
    read_err gzr = None ∧
    "0" +:+ EncodeToString w (String.substring 0 20 (sha256_Sum w (plain gzr)))
      = record_Sum w rec.

(** The integers at hand fit their type [int64]. *)
Definition representable (w : world) (n : Z) : Prop :=
  int64_range n ∧
  int64_range (StoredHashCount w n * HashSize) ∧
  (0 < n → int64_range (StoredHashIndex w 0 (n - 1) * HashSize)).

(** [ReadRecords], asked for the one record [id], does not return an
    empty slice with a nil error. *)
Definition ReadRecords_returns_records (w : world) (id : Z) : Prop :=
  ReadRecords w id 1 ≠ Ok [].

(** A world for a log of one record.  The functions of package tlog,
    the digest and the encoding are stand-ins on short strings. *)
Definition hash_a : string := "0123456789abcdef0123456789abcdef".

Definition world_one : world :=
  {| treeSize := Ok 1;
     hashesFile := {| content := hash_a; stat_err := None; readat_err := None |};
     ReadRecords := λ _ _, Ok ["record 0"];
     StoredHashCount := λ n, n;
     StoredHashIndex := λ _ n, n;
     StoredHashes := λ _ _, Ok [hash_a];
     record := string;
     record_Sum := λ _, "0c3Vt";
     storeDir := λ _, "data/result/0/0c3Vt";
     parseRecord := Ok;
     ReadFile := λ _, Ok "0";
     Open := λ _, Ok {| data := "gz"; close_err := None |};
     NewReader := λ _, Ok {| plain := "binary"; read_err := None |};
     sha256_Sum := λ _, "digest";
     EncodeToString := λ _, "c3Vt" |}.

(** The same log after the hashes file was cut by one byte. *)
Definition world_cut : world :=
  {| treeSize := Ok 1;
     hashesFile := {| content := "0123456789abcdef0123456789abcde";
                      stat_err := None; readat_err := None |};
     ReadRecords := ReadRecords world_one;
     StoredHashCount := StoredHashCount world_one;
     StoredHashIndex := StoredHashIndex world_one;
     StoredHashes := StoredHashes world_one;
     record := string;
     record_Sum := record_Sum world_one;
     storeDir := storeDir world_one;
     parseRecord := parseRecord world_one;
     ReadFile := ReadFile world_one;
     Open := Open world_one;
     NewReader := NewReader world_one;
     sha256_Sum := sha256_Sum world_one;
     EncodeToString := EncodeToString world_one |}.

(** All that [verifySumState] requires of the last record of a log of
    [n] records, in the arithmetic of the machine. *)
Definition last_record_verified (w : world) (n : Z) : Prop :=
  ∃ records0 rest hashes buf rec rbuf f gzr,
    ReadRecords w (sub64 n 1) 1 = Ok (records0 :: rest) ∧
    StoredHashes w (sub64 n 1) records0 = Ok hashes ∧
    ReadAt (hashesFile w) (length hashes * 32)
           (mul64 (StoredHashIndex w 0 (sub64 n 1)) HashSize) = Ok buf ∧
    (∀ i h, hashes !! i = Some h → String.substring (i * 32) 32 buf = h) ∧
    parseRecord w records0 = Ok rec ∧
    ReadFile w (filepath_Join (storeDir w rec) "recordnumber") = Ok rbuf ∧
    ParseInt rbuf = Some (sub64 n 1) ∧
    Open w (filepath_Join (storeDir w rec) "binary.gz") = Ok f ∧
    NewReader w (data f) = Ok gzr ∧
    read_err gzr = None ∧
    "0" +:+ EncodeToString w (String.substring 0 20 (sha256_Sum w (plain gzr)))
      = record_Sum w rec ∧
    close_err f = None.

(** A string of decimal digits. *)
Fixpoint all_digits (s : string) : bool :=
  match s with
  | EmptyString => true
  | String c s' =>
      match digit_value c with
      | Some _ => all_digits s'
      | None => false
      end
  end.

(** A string without its leading sign, if it has one. *)
Definition unsigned_part (s : string) : string :=
  match s with
  | EmptyString => EmptyString
  | String c s' => if Ascii.eqb c "+" || Ascii.eqb c "-" then s' else s
  end.

(** The log of [world_one] with a recordnumber file ending in a
    newline. *)
Definition world_newline : world :=
  {| treeSize := treeSize world_one;
     hashesFile := hashesFile world_one;
     ReadRecords := ReadRecords world_one;
     StoredHashCount := StoredHashCount world_one;
     StoredHashIndex := StoredHashIndex world_one;
     StoredHashes := StoredHashes world_one;
     record := string;
     record_Sum := record_Sum world_one;
     storeDir := storeDir world_one;
     parseRecord := parseRecord world_one;
     ReadFile := λ _, Ok ("0" +:+ newline);
     Open := Open world_one;
     NewReader := NewReader world_one;
     sha256_Sum := sha256_Sum world_one;
     EncodeToString := EncodeToString world_one |}.

End SumState.

(** * Properties *)

Module HTTPProps.
Import HTTP.

Lemma status_Header_Set k v w : status (Header_Set k v w) = status w.
Proof. reflexivity. Qed.

Lemma status_WriteHeader code w :
  status (WriteHeader code w) = Some (default code (status w)).
Proof. unfold WriteHeader. by destruct (status w) eqn:E. Qed.

Lemma status_Write data w :
  status (Write data w) = Some (default 200 (status w)).
Proof. unfold Write. simpl. apply status_WriteHeader. Qed.

Lemma body_Write data w : body (Write data w) = body w +:+ data.
Proof. unfold Write, WriteHeader. by destruct (status w). Qed.

Lemma header_Write data w : header (Write data w) = header w.
Proof. unfold Write, WriteHeader. by destruct (status w). Qed.

Lemma status_Error_ msg code w :
  status (Error_ msg code w) = Some (default code (status w)).
Proof.
  unfold Error_. rewrite status_Write, status_WriteHeader, !status_Header_Set. done.
Qed.

Lemma status_Redirect lib r url code w :
  status (Redirect lib r url code w) = Some (default code (status w)).
Proof.
  unfold Redirect.
  repeat case_match; rewrite ?status_Write, status_WriteHeader, ?status_Header_Set; done.
Qed.

Example cleanPath_dots : cleanPath "/a/../b/./c/" = "/b/c/"%string.
Proof. reflexivity. Qed.

Example cleanPath_slashes : cleanPath "//robots.txt" = "/robots.txt"%string.
Proof. reflexivity. Qed.

Example cleanPath_root : cleanPath "/.." = "/"%string.
Proof. reflexivity. Qed.

End HTTPProps.

Module SDKProps.
Import SDK.

Example checkGoversion_go1_10 :
  ∃ e, checkGoversion "go1.10" = Some e ∧ errors_Is e id_errBadGoversion = true.
Proof. eexists. split; reflexivity. Qed.

Example checkGoversion_go1_21_0 : checkGoversion "go1.21.0" = None.
Proof. reflexivity. Qed.

Example checkGoversion_go1_21rc1 : checkGoversion "go1.21rc1" <> None.
Proof. discriminate. Qed.

Example checkGoversion_go2 : checkGoversion "go2" = None.
Proof. reflexivity. Qed.

Lemma HasPrefix_go1dot_length v :
  HasPrefix v "go1." = true → (4 <= String.length v)%nat.
Proof.
  unfold HasPrefix.
  destruct v as [|a [|b [|c [|d v]]]]; simpl;
    repeat (case_match; try discriminate); intros; lia.
Qed.

Lemma checkGoversion_bad v e :
  checkGoversion v = Some e →
  errors_Is e id_errBadGoversion = true ∧ is_fetch_error e = false.
Proof.
  unfold checkGoversion.
  repeat (case_match; try discriminate); intros [= <-]; split; reflexivity.
Qed.

Lemma checkGoversion_None_iff v : checkGoversion v = None ↔ acceptable v.
Proof.
  unfold checkGoversion, acceptable, legacy_shape, leading_minor.
  destruct (HasPrefix v "go") eqn:Hgo; simpl.
  2:{ split; [discriminate | intros [? _]; discriminate]. }
  destruct (HasPrefix v "go1") eqn:Hgo1.
  2:{ split; [intros _; split; [done | left; congruence] | done]. }
  destruct (HasPrefix v "go1.") eqn:Hdot; simpl.
  - pose proof (HasPrefix_go1dot_length v Hdot) as Hlen.
    destruct (String.length v <? 4)%nat eqn:Hlt; [apply Nat.ltb_lt in Hlt; lia |].
    simpl.
    destruct (ParseInt _) as [num|] eqn:Hnum.
    + destruct (num <? 13) eqn:Hcmp.
      * split; [discriminate |].
        intros [_ [Hn | (n & [= <-] & Hle)]]; [congruence | lia].
      * split; [| done]. intros _. split; [done |]. right. exists num. split; [done | lia].
    + split; [discriminate |].
      intros [_ [Hn | (n & [=] & _)]]. congruence.
  - rewrite orb_true_r. split; [discriminate |].
    intros [_ [Hn | (n & [=] & _)]]. congruence.
Qed.

(** C3: an identifier that is not acceptable is refused with a
    bad-goversion error, the state untouched and no call made to the
    catalog or the file system; an acceptable one passes the check. *)
Theorem ensureSDK_refuses_unacceptable (v : string) :
  (¬ acceptable v →
   ∀ w s, ∃ e, ensureSDK w v s = (Some e, s, []) ∧
               errors_Is e id_errBadGoversion = true) ∧
  (acceptable v → checkGoversion v = None).
Proof.
  split.
  - intros Hna w s. unfold ensureSDK.
    destruct (checkGoversion v) as [e|] eqn:Hc.
    + exists e. split; [done |]. by apply checkGoversion_bad in Hc as [? _].
    + exfalso. by apply Hna, checkGoversion_None_iff.
  - by intros ?%checkGoversion_None_iff.
Qed.

Lemma ensureSDK_refuses_unacceptable_witness :
  ∃ e, ensureSDK world_up "go1.10" (initSDK ["go1.21.0"]) =
         (Some e, initSDK ["go1.21.0"], []) ∧
       errors_Is e id_errBadGoversion = true.
Proof.
  apply (proj1 (ensureSDK_refuses_unacceptable "go1.10")).
  intros [_ [Hn | (n & Hn & Hle)]].
  - apply Hn. reflexivity.
  - vm_compute in Hn. injection Hn as <-. lia.
Defined.

Lemma find_release_None rels v :
  find_release rels v = None ↔ v ∉ Version <$> rels.
Proof.
  induction rels as [|rel rels IH]; simpl.
  - split; [intros _; apply not_elem_of_nil | done].
  - rewrite not_elem_of_cons.
    destruct (String.eqb (Version rel) v) eqn:E.
    + apply String.eqb_eq in E. split; [discriminate | intros [? _]; congruence].
    + apply String.eqb_neq in E. rewrite IH. split; [auto | tauto].
Qed.

(** The outcomes of [install]: either the toolchain is put in place, or
    the error is one of the four server errors and is recorded. *)
Lemma install_cases w rel v s r s1 tr :
  install w rel v s = (r, s1, tr) →
  tr ≠ [] ∧
  ((r = None ∧ installed s1 = {[v]} ∪ installed s ∧ disk s1 = {[v]} ∪ disk s ∧
    status s1 = <[v := None]> (status s)) ∨
   (∃ e, r = Some e ∧ errors_Is e id_errServer = true ∧ e ≠ errNoSuchVersion ∧
         s1 = set_status v (Some e) s)).
Proof.
  unfold install.
  repeat case_match; intros [= <- <- <-]; (split; [done |]);
    solve [ left; done
          | right; eexists; split; [done |]; split; [done |]; split; [discriminate | done] ].
Qed.

Lemma ensureSDK_exit w v s :
  exit_of w v s (ensureSDK w v s).1.1 (ensureSDK w v s).1.2 (ensureSDK w v s).2.
Proof.
  unfold ensureSDK.
  destruct (checkGoversion v) as [e|] eqn:Hc; [by constructor |].
  case_bool_decide as Hin; [by constructor |].
  destruct (status s !! v) as [err|] eqn:Hst; [by constructor |].
  destruct (ListAll w) as [rels|err] eqn:Hl; [| by econstructor].
  destruct (find_release rels v) as [rel|] eqn:Hf; [| by econstructor].
  destruct (install w rel v s) as [[r s1] tr] eqn:Hi. simpl.
  by econstructor.
Qed.

Lemma ensureSDK_inv w v s r s1 tr :
  ensureSDK w v s = (r, s1, tr) → exit_of w v s r s1 tr.
Proof. intros H. pose proof (ensureSDK_exit w v s) as E. by rewrite H in E. Qed.

(** A call changes the record of no other version. *)
Lemma ensureSDK_frame w v' s v :
  v' ≠ v →
  (v ∈ installed (ensureSDK w v' s).1.2 ↔ v ∈ installed s) ∧
  status (ensureSDK w v' s).1.2 !! v = status s !! v.
Proof.
  intros Hne. destruct (ensureSDK w v' s) as [[r0 s0] tr0] eqn:E.
  apply ensureSDK_inv in E. simpl.
  inversion E as [ | | | err e ? ? ? ? He | rels rel r s1 tr ? ? ? ? ? Hi | ];
    subst; try done.
  - simpl. by rewrite lookup_insert_ne.
  - apply install_cases in Hi as [_ [(_ & Hin & _ & Hst) | (e & _ & _ & _ & ->)]].
    + rewrite Hin, Hst, lookup_insert_ne by done.
      split; [| done]. rewrite elem_of_union, elem_of_singleton.
      split; [intros [? | ?]; [by subst | done] | auto].
    + simpl. by rewrite lookup_insert_ne.
Qed.

(** Once an entry of [status] exists for a version that is not
    installed, no call changes either fact. *)
Lemma ensureSDK_keeps_status w v' s v x :
  v ∉ installed s → status s !! v = Some x →
  (v ∉ installed (ensureSDK w v' s).1.2) ∧ (status (ensureSDK w v' s).1.2 !! v = Some x).
Proof.
  intros Hni Hst. destruct (decide (v' = v)) as [-> | Hne].
  - destruct (ensureSDK w v s) as [[r0 s0] tr0] eqn:E.
    apply ensureSDK_inv in E. simpl.
    inversion E; subst; try done; congruence.
  - destruct (ensureSDK_frame w v' s v Hne) as [Hi Hs]. rewrite Hs, Hi. done.
Qed.

Lemma run_keeps_status calls s v x :
  v ∉ installed s → status s !! v = Some x →
  (v ∉ installed (run calls s)) ∧ (status (run calls s) !! v = Some x).
Proof.
  revert s. induction calls as [|[w v'] calls IH]; intros s Hni Hst; [done |].
  simpl. destruct (ensureSDK_keeps_status w v' s v x Hni Hst). by apply IH.
Qed.

Lemma run_frame calls s v :
  Forall (λ c : world * string, c.2 ≠ v) calls →
  (v ∈ installed (run calls s) ↔ v ∈ installed s) ∧
  status (run calls s) !! v = status s !! v.
Proof.
  intros Hall. revert s. induction Hall as [|[w v'] calls Hne _ IH]; intros s; [done |].
  simpl in *. destruct (IH (ensureSDK w v' s).1.2) as [Hi Hs].
  destruct (ensureSDK_frame w v' s v Hne) as [Hi' Hs'].
  rewrite Hi, Hs, Hi', Hs'. done.
Qed.

Lemma ensureSDK_remembered w v s err :
  checkGoversion v = None → v ∉ installed s → status s !! v = Some err →
  ensureSDK w v s = (err, s, []).
Proof.
  intros Hc Hni Hst. unfold ensureSDK. rewrite Hc, Hst.
  by rewrite bool_decide_eq_false_2.
Qed.

Lemma ensureSDK_lists w v s :
  checkGoversion v = None → v ∉ installed s → status s !! v = None →
  ∃ r s1 tr, ensureSDK w v s = (r, s1, EvListAll :: tr).
Proof.
  intros Hc Hni Hst. unfold ensureSDK. rewrite Hc, Hst.
  rewrite bool_decide_eq_false_2 by done.
  destruct (ListAll w) as [rels|err]; [| by eauto].
  destruct (find_release rels v) as [rel|]; [| by eauto].
  destruct (install w rel v s) as [[r1 s1] tr1]. by eauto.
Qed.

Lemma remembered_forever v s e :
  checkGoversion v = None → v ∉ installed s → status s !! v = Some (Some e) →
  ∀ calls w, ensureSDK w v (run calls s) = (Some e, run calls s, []).
Proof.
  intros Hc Hni Hst calls w.
  destruct (run_keeps_status calls s v (Some e) Hni Hst) as [Hni' Hst'].
  by apply ensureSDK_remembered.
Qed.

(** Whatever the state, an error returned after going out to the
    catalog is a fetch error unless the version is absent from the
    catalog; a fetch error is returned again by every later call for
    that version, with no call leaving the process; absence from the
    catalog leaves the state as it was. *)
Lemma ensureSDK_error_cases w v s e s1 tr :
  ensureSDK w v s = (Some e, s1, tr) →
  (tr ≠ [] → e ≠ errNoSuchVersion → is_fetch_error e = true) ∧
  (is_fetch_error e = true →
   ∀ calls w', ensureSDK w' v (run calls s1) = (Some e, run calls s1, [])) ∧
  (tr ≠ [] → e = errNoSuchVersion →
   s1 = s ∧ status s1 !! v = None ∧
   ∀ calls w', Forall (λ c : world * string, c.2 ≠ v) calls →
     ∃ r s2 tr', ensureSDK w' v (run calls s1) = (r, s2, EvListAll :: tr')).
Proof.
  intros H. apply ensureSDK_inv in H.
  inversion H as [ e' Hc | | err Hc Hni Hst | err e' Hc Hni Hst Hl He
                 | rels rel r' s1' tr' Hc Hni Hst Hl Hf Hi | rels Hc Hni Hst Hl Hf ].
  - subst. apply checkGoversion_bad in Hc as [_ Hc]. repeat split; try done. congruence.
  - subst. repeat split; try done. intros _. by apply remembered_forever.
  - assert (is_fetch_error e = true) as Hfe by (by rewrite He).
    assert (e ≠ errNoSuchVersion) as Hne by (by rewrite He).
    subst s1. repeat split; try done. intros _.
    apply remembered_forever; [done | done |]. simpl. by rewrite lookup_insert_eq.
  - subst. apply install_cases in Hi as [_ [(? & _) | (e' & [= <-] & Hsrv & Hne & ->)]]; [done |].
    assert (is_fetch_error e = true) as Hfe
      by (unfold is_fetch_error; by rewrite Hsrv, orb_true_r).
    repeat split; try done. intros _.
    apply remembered_forever; [done | done |]. simpl. by rewrite lookup_insert_eq.
  - subst. split; [done |]. split; [done |]. intros _ _. repeat split; try done.
    intros calls w' Hall. destruct (run_frame calls s1 v Hall) as [Hi Hs].
    apply ensureSDK_lists; [done | by rewrite Hi | by rewrite Hs].
Qed.

Lemma fetch_failure_is_fetch_error w v e tr :
  fetch_failure w v e tr → is_fetch_error e = true ∧ e ≠ errNoSuchVersion.
Proof. by intros []. Qed.

(** A call that has to fetch and meets a failure of the fetch returns
    the error made of it and records it. *)
Lemma ensureSDK_fetch_failure w v s e tr :
  checkGoversion v = None → v ∉ installed s → status s !! v = None →
  fetch_failure w v e tr →
  ensureSDK w v s = (Some e, set_status v (Some e) s, tr).
Proof.
  intros Hc Hni Hst Hf. unfold ensureSDK. rewrite Hc, Hst.
  rewrite bool_decide_eq_false_2 by done.
  destruct Hf as [err Hl | rels rel err Hl Hr Hff | rels rel f err Hl Hr Hff Ht
                 | rels rel f tmpdir err Hl Hr Hff Ht Hfe
                 | rels rel f tmpdir err Hl Hr Hff Ht Hfe Hrn];
    rewrite Hl; [done | ..]; rewrite Hr; unfold install; rewrite Hff; [done | ..];
    rewrite Ht; [done | ..]; rewrite Hfe; [done |]; by rewrite Hrn.
Qed.

(** C5: take a call for an accepted version that is neither installed
    nor remembered, so that it goes out to fetch.  When the listing of
    the catalog, the lookup of the release file, the creation of the
    temporary directory, the download or the renaming fails, the call
    returns the fetch error made of that failure and records it, and
    every later call for that version, whatever calls came in between
    and whatever the world answers by then, returns the same error with
    no call leaving the process.  When the catalog lists no such
    version, the call returns the error of a version that does not
    exist and leaves the state as it was, and a later call for that
    version asks the catalog again.  A call that fails does so in one
    of these ways. *)
Theorem ensureSDK_fetch_errors_remembered w v s :
  checkGoversion v = None → v ∉ installed s → status s !! v = None →
  (∀ e tr, fetch_failure w v e tr →
     let s1 := set_status v (Some e) s in
     ensureSDK w v s = (Some e, s1, tr) ∧
     is_fetch_error e = true ∧
     status s1 !! v = Some (Some e) ∧
     ∀ calls w', ensureSDK w' v (run calls s1) = (Some e, run calls s1, [])) ∧
  (∀ rels, ListAll w = Ok rels → v ∉ Version <$> rels →
     ensureSDK w v s = (Some errNoSuchVersion, s, [EvListAll]) ∧
     is_fetch_error errNoSuchVersion = false ∧
     ∀ calls w', Forall (λ c : world * string, c.2 ≠ v) calls →
       ∃ r s2 tr', ensureSDK w' v (run calls s) = (r, s2, EvListAll :: tr')) ∧
  (∀ e s1 tr, ensureSDK w v s = (Some e, s1, tr) →
     fetch_failure w v e tr ∨
     (e = errNoSuchVersion ∧ ∃ rels, ListAll w = Ok rels ∧ v ∉ Version <$> rels)).
Proof.
  intros Hc Hni Hst. split; [| split].
  - intros e tr Hf s1. split; [by apply ensureSDK_fetch_failure |].
    split; [by apply fetch_failure_is_fetch_error in Hf as [? _] |].
    assert (status s1 !! v = Some (Some e)) as Hs1
      by (unfold s1; simpl; by rewrite lookup_insert_eq).
    split; [done |]. by apply remembered_forever.
  - intros rels Hl Hn. apply find_release_None in Hn. split; [| split; [done |]].
    + unfold ensureSDK. rewrite Hc, Hst, Hl, Hn. by rewrite bool_decide_eq_false_2.
    + intros calls w' Hall. destruct (run_frame calls s v Hall) as [Hi Hs].
      apply ensureSDK_lists; [done | by rewrite Hi | by rewrite Hs].
  - intros e s1 tr H. apply ensureSDK_inv in H.
    inversion H as [ e' Hc' | | err Hc' Hni' Hst' | err e' Hc' Hni' Hst' Hl He
                   | rels rel r' s1' tr' Hc' Hni' Hst' Hl Hf Hi | rels Hc' Hni' Hst' Hl Hf ];
      subst; try congruence.
    + left. by constructor.
    + left. unfold install in Hi.
      destruct (FindFile w rel) as [f|err] eqn:Hff;
        [| injection Hi as <- <- <-; by econstructor].
      destruct (TempDir w) as [tmpdir|err] eqn:Ht;
        [| injection Hi as <- <- <-; by econstructor].
      destruct (Fetch w f tmpdir) as [err|] eqn:Hfe;
        [injection Hi as <- <- <-; by econstructor |].
      destruct (Rename w tmpdir v) as [err|] eqn:Hrn; [| done].
      injection Hi as <- <- <-. by econstructor.
    + right. split; [done |]. exists rels. split; [done |]. by apply find_release_None.
Qed.

Lemma ensureSDK_fetch_errors_remembered_witness :
  let e := fmt_Errorf "remote: listing known releases: connection refused" [errRemote] in
  let s1 := (ensureSDK world_down "go1.21.0" (initSDK [])).1.2 in
  (ensureSDK world_down "go1.21.0" (initSDK []) = (Some e, s1, [EvListAll]) ∧
   status s1 !! "go1.21.0" = Some (Some e) ∧
   ensureSDK world_up "go1.21.0" (run [(world_up, "go1.20.1")] s1) =
     (Some e, run [(world_up, "go1.20.1")] s1, [])) ∧
  ensureSDK world_up "go1.22.0" (initSDK []) = (Some errNoSuchVersion, initSDK [], [EvListAll]).
Proof.
  intros e s1.
  assert (∀ v : string, v ∉ installed (initSDK [])) as Hni
    by (intros v; apply not_elem_of_empty).
  split.
  - destruct (ensureSDK_fetch_errors_remembered world_down "go1.21.0" (initSDK [])
                eq_refl (Hni _) eq_refl) as [Hfail _].
    destruct (Hfail e [EvListAll]
                (failure_listing world_down "go1.21.0" (errors_New 7 "connection refused")
                   eq_refl))
      as (Hcall & _ & Hst & Hlater).
    split; [exact Hcall |]. split; [exact Hst |].
    exact (Hlater [(world_up, "go1.20.1")] world_up).
  - destruct (ensureSDK_fetch_errors_remembered world_up "go1.22.0" (initSDK [])
                eq_refl (Hni _) eq_refl) as (_ & Habsent & _).
    destruct (Habsent _ eq_refl) as [Hcall _]; [| exact Hcall].
    intros Hin. apply list_elem_of_fmap in Hin as (rel & Hv & Hin).
    apply list_elem_of_singleton in Hin as ->. discriminate.
Defined.

Lemma ensureSDK_installed w v s :
  checkGoversion v = None → v ∈ installed s → ensureSDK w v s = (None, s, []).
Proof.
  intros Hc Hin. unfold ensureSDK. rewrite Hc. by rewrite bool_decide_eq_true_2.
Qed.

Lemma initSDK_consistent entries : consistent (initSDK entries).
Proof.
  split; simpl.
  - intros v. rewrite !elem_of_list_to_set, list_elem_of_filter. tauto.
  - intros v. by rewrite lookup_empty.
Qed.

Lemma set_status_consistent v e s :
  consistent s → consistent (set_status v (Some e) s).
Proof.
  intros [Hi Hs]. split; simpl; [done |].
  intros v0. destruct (decide (v = v0)) as [-> | Hne].
  - by rewrite lookup_insert_eq.
  - rewrite lookup_insert_ne by done. apply Hs.
Qed.

(** C4, as the code has it: a second call with the same answers of the
    world gives the same result and leaves the state alone; for an
    installed version that passes the syntactic check the call returns
    nil at once; and, from a state that records as present only what is
    on disk, nil is returned only when the toolchain directory exists
    after the call. *)
Theorem ensureSDK_idempotent_on_disk w v s r s1 tr :
  ensureSDK w v s = (r, s1, tr) →
  (∃ tr', ensureSDK w v s1 = (r, s1, tr')) ∧
  (v ∈ installed s → checkGoversion v = None → r = None ∧ s1 = s ∧ tr = []) ∧
  (consistent s → consistent s1 ∧ (r = None → v ∈ disk s1)).
Proof.
  intros H. pose proof (ensureSDK_inv _ _ _ _ _ _ H) as E.
  inversion E as [ e' Hc | Hc Hin | err Hc Hni Hst | err e' Hc Hni Hst Hl He
                 | rels rel r' s1' tr' Hc Hni Hst Hl Hf Hi | rels Hc Hni Hst Hl Hf ].
  - subst. split; [by eauto |]. split; [congruence |]. intros Hcons. split; [done | done].
  - subst. split; [by eauto |]. split; [done |]. intros [Hi Hs]. split; [done |].
    intros _. by apply Hi.
  - subst. split; [by eauto |]. split; [done |]. intros [Hi Hs]. split; [done |].
    intros ->. by apply Hs.
  - subst s1 r tr. split; [| split; [done |]].
    + exists []. apply ensureSDK_remembered; [done | done |]. simpl. by rewrite lookup_insert_eq.
    + intros Hcons. split; [by apply set_status_consistent | done].
  - subst r' s1' tr.
    apply install_cases in Hi as [_ [(-> & Hin & Hd & Hs) | (e & -> & _ & _ & ->)]].
    + split; [| split; [done |]].
      * exists []. apply ensureSDK_installed; [done |]. rewrite Hin. set_solver.
      * intros [Hi Hst']. split; [| intros _; rewrite Hd; set_solver].
        split; [rewrite Hin, Hd; set_solver |].
        intros v0. rewrite Hs, Hd. destruct (decide (v = v0)) as [-> | Hne].
        -- intros _. set_solver.
        -- rewrite lookup_insert_ne by done. intros ?%Hst'. set_solver.
    + split; [| split; [done |]].
      * exists []. apply ensureSDK_remembered; [done | done |]. simpl. by rewrite lookup_insert_eq.
      * intros Hcons. split; [by apply set_status_consistent | done].
  - subst. split; [by eauto |]. split; [done |]. intros Hcons. split; [done | done].
Qed.

Lemma ensureSDK_idempotent_on_disk_witness :
  "go1.21.0" ∈ disk (ensureSDK world_up "go1.21.0" (initSDK ["go1.20.1"])).1.2.
Proof.
  destruct (ensureSDK world_up "go1.21.0" (initSDK ["go1.20.1"])) as [[r s1] tr] eqn:E.
  pose proof (ensureSDK_idempotent_on_disk _ _ _ _ _ _ E) as (_ & _ & Hd).
  destruct (Hd (initSDK_consistent _)) as [_ Hnil]. apply Hnil.
  vm_compute in E. by injection E as <- _ _.
Defined.

(** The claim as worded fails: a toolchain directory of a version older
    than go1.13 is listed as installed by [initSDK], and [ensureSDK]
    refuses it. *)
Lemma ensureSDK_installed_old_version_refused :
  ¬ (∀ w v s, v ∈ installed s → ensureSDK w v s = (None, s, [])).
Proof.
  intros H. specialize (H world_up "go1.12" (initSDK ["go1.12"])).
  assert ("go1.12" ∈ installed (initSDK ["go1.12"])) as Hin.
  { apply (bool_decide_unpack _). vm_compute. exact I. }
  specialize (H Hin). vm_compute in H. discriminate.
Qed.

End SDKProps.

Module TargetsProps.
Import Targets.

Lemma merge_sort_Slice_sorts m l : sorts merge_sort_Slice (less m) l.
Proof.
  unfold sorts, merge_sort_Slice. split.
  - apply merge_sort_Permutation.
  - assert (Total (λ a b, less m b a = false)) as Htot.
    { intros a b. unfold less. rewrite !Z.ltb_ge. lia. }
    apply (Sorted_merge_sort (λ a b, less m b a = false)).
Qed.

Lemma Sorted_weaken {A} (R S : relation A) (l : list A) :
  (∀ a b, R a b → S a b) → Sorted R l → Sorted S l.
Proof.
  intros HRS. induction 1 as [|x l Hs IH Hh]; constructor; [done |].
  destruct Hh; constructor; auto.
Qed.

Example increase_first :
  (increase merge_sort_Slice "linux/amd64" targets).2 = [EvSort] ∧
  totalUse (increase merge_sort_Slice "linux/amd64" targets).1 = 1 ∧
  hd_error (list_ (increase merge_sort_Slice "linux/amd64" targets).1) = Some (mk "linux" "amd64").
Proof. vm_compute. done. Qed.

(** C7, as the code has it: the list is sorted again exactly when the
    total after the call is at most 32 or a multiple of 32; otherwise
    the list is left as it was.  When it is sorted again, and
    [sort.Slice] keeps its promise, the new list is a rearrangement of
    the old one by descending use count. *)
Theorem increase_resorts sort_Slice tgt t :
  let t' := (increase sort_Slice tgt t).1 in
  let tr := (increase sort_Slice tgt t).2 in
  totalUse t' = add64 (totalUse t) 1 ∧
  (EvSort ∈ tr ↔ totalUse t' <= 32 ∨ Z.rem (totalUse t') 32 = 0) ∧
  (EvSort ∉ tr → list_ t' = list_ t) ∧
  (EvSort ∈ tr →
   list_ t' = sort_Slice (less (use t')) (list_ t) ∧
   (sorts sort_Slice (less (use t')) (list_ t) →
    list_ t' ≡ₚ list_ t ∧
    Sorted (λ a b, use_of (use t') (osarch b) <= use_of (use t') (osarch a)) (list_ t'))).
Proof.
  unfold increase. simpl.
  destruct ((add64 (totalUse t) 1 <=? 32) || (Z.rem (add64 (totalUse t) 1) 32 =? 0)) eqn:Hc;
    simpl.
  - apply orb_true_iff in Hc. rewrite Z.leb_le, Z.eqb_eq in Hc.
    split; [done |]. split; [split; [done | intros _; apply list_elem_of_here] |].
    split; [intros Hn; exfalso; apply Hn, list_elem_of_here |].
    intros _. split; [done |]. intros [Hp Hs]. split; [done |].
    eapply Sorted_weaken; [| exact Hs]. intros a b. unfold less. simpl.
    intros ?%Z.ltb_ge. done.
  - apply orb_false_iff in Hc. rewrite Z.leb_gt, Z.eqb_neq in Hc.
    split; [done |]. split; [split; [intros []%elem_of_nil | lia] |].
    split; [done |]. intros []%elem_of_nil.
Qed.

Lemma increase_resorts_witness :
  list_ (increase merge_sort_Slice "linux/amd64" targets).1 ≡ₚ list_ targets ∧
  Sorted (λ a b, use_of (use (increase merge_sort_Slice "linux/amd64" targets).1) (osarch b)
                 <= use_of (use (increase merge_sort_Slice "linux/amd64" targets).1) (osarch a))
         (list_ (increase merge_sort_Slice "linux/amd64" targets).1).
Proof.
  destruct (increase_resorts merge_sort_Slice "linux/amd64" targets) as (_ & _ & _ & H).
  apply H.
  - vm_compute. apply list_elem_of_here.
  - apply merge_sort_Slice_sorts.
Defined.

(** The claim as worded fails on the first observation: the total is 1
    and the list is sorted. *)
Lemma increase_resorts_during_warmup :
  ¬ resorts_on_multiples_of_32 merge_sort_Slice.
Proof.
  intros H. specialize (H "linux/amd64" targets).
  destruct H as [H _]. vm_compute in H.
  specialize (H (list_elem_of_here _ _)). discriminate.
Qed.

End TargetsProps.

Module ServeProps.
Import HTTP Serve.

Example acceptsGzip_plain : acceptsGzip (request_accepting "gzip, deflate") = Returns true.
Proof. reflexivity. Qed.

Example acceptsGzip_none : acceptsGzip (request_accepting "deflate") = Returns false.
Proof. reflexivity. Qed.

Example acceptsGzip_absent :
  acceptsGzip {| Method := "GET"; Path := "/"; Header := ∅; Form := ∅ |} = Returns false.
Proof. reflexivity. Qed.

(** Without parameters in the header the loop never indexes [t] and
    agrees with the specification. *)
Lemma acceptsGzip_loop_no_params t es :
  Forall (λ e, length (Split (TrimSpace e) ";") = 1%nat) es →
  acceptsGzip_loop t es = Returns (existsb entry_accepts_gzip es).
Proof.
  induction 1 as [|e es He _ IH]; [done |].
  simpl. unfold entry_accepts_gzip.
  destruct (Split (TrimSpace e) ";") as [|name [|? ?]] eqn:Hs; try done.
  simpl. rewrite IH, andb_true_r. by destruct (String.eqb name "gzip").
Qed.

(** C9 fails on the code: the entry "gzip;q=0" alone makes
    [acceptsGzip] index the one-element list of entries at position 1. *)
Theorem acceptsGzip_panics_on_q0 :
  acceptsGzip (request_accepting "gzip;q=0") = Panics.
Proof. reflexivity. Qed.

Lemma status_io_Copy src w :
  final_status (io_Copy src w) = final_status w.
Proof.
  unfold io_Copy, final_status. destruct (String.eqb src EmptyString); [done |].
  rewrite HTTPProps.status_Write. by destruct (status w).
Qed.

Lemma append_empty_r (s : string) : s +:+ EmptyString = s.
Proof.
  induction s as [|c s IH]; [done |].
  change (String c s +:+ EmptyString) with (String c (s +:+ EmptyString)).
  by rewrite IH.
Qed.

Lemma body_io_Copy src w : body (io_Copy src w) = body w +:+ src.
Proof.
  unfold io_Copy. destruct (String.eqb src EmptyString) eqn:E;
    [| apply HTTPProps.body_Write].
  apply String.eqb_eq in E. subst. by rewrite append_empty_r.
Qed.

Lemma header_io_Copy src w : header (io_Copy src w) = header w.
Proof.
  unfold io_Copy. destruct (String.eqb src EmptyString); [done |].
  apply HTTPProps.header_Write.
Qed.

(** What [serveGzipFile] does with the answer of [acceptsGzip]: the
    stored bytes under Content-Encoding gzip when it is true, the
    decompressed bytes when it is false and the stored bytes are a gzip
    stream. *)
Lemma serveGzipFile_follows_acceptsGzip errorTemplate NewReader r path src w :
  match acceptsGzip r with
  | Returns true =>
      serveGzipFile errorTemplate NewReader r path src w =
        Returns (io_Copy src (Header_Set "Content-Encoding" "gzip" w))
  | Returns false =>
      ∀ gzr, NewReader src = Ok gzr →
        serveGzipFile errorTemplate NewReader r path src w = Returns (io_Copy (plain gzr) w)
  | Panics => serveGzipFile errorTemplate NewReader r path src w = Panics
  end.
Proof.
  unfold serveGzipFile. destruct (acceptsGzip r) as [[|]|]; try done.
  by intros gzr ->.
Qed.

(** C6 fails on the code: with a second entry in the header, the
    parameter q=0 of the entry gzip is not looked at, gzip counts as
    accepted, and the stored bytes are sent with Content-Encoding gzip. *)
Theorem serveGzipFile_ignores_q0 errorTemplate NewReader path src :
  lists_gzip "gzip;q=0, identity" = false ∧
  acceptsGzip (request_accepting "gzip;q=0, identity") = Returns true ∧
  ∃ w, serveGzipFile errorTemplate NewReader
         (request_accepting "gzip;q=0, identity") path src new_writer = Returns w ∧
       header w !! "Content-Encoding" = Some "gzip" ∧
       body w = src ∧
       final_status w = 200.
Proof.
  split; [reflexivity |]. split; [reflexivity |].
  eexists. split; [reflexivity |].
  rewrite header_io_Copy, body_io_Copy, status_io_Copy. repeat split.
Qed.

End ServeProps.

Module GoproxyProps.
Import HTTP Serve Goproxy.

(** The errors of [resolveModuleLatest] wrap one sentinel at most, and
    the remote ones are those of a response that is not 200, of a body
    that does not parse, and of an empty version. *)
Lemma resolveModuleLatest_errors w goproxy mod_ e :
  resolveModuleLatest w goproxy mod_ = Err e →
  errors_Is e id_errRemote = true →
  errors_Is e id_errServer = false ∧
  ∃ modPath resp,
    EscapePath w mod_ = Ok modPath ∧
    Do w (goproxy +:+ modPath +:+ "/@latest") = Ok resp ∧
    (StatusCode resp ≠ 200 ∨
     (∃ err, Decode w resp = Err err) ∨
     (∃ info, Decode w resp = Ok info ∧ Version info = EmptyString)).
Proof.
  unfold resolveModuleLatest.
  destruct (EscapePath w mod_) as [modPath|err] eqn:He; [| by intros [= <-]].
  destruct (NewRequest w _) as [err|] eqn:Hn; [by intros [= <-] |].
  destruct (Do w _) as [resp|err] eqn:Hd; [| by intros [= <-]].
  destruct (StatusCode resp =? 200) eqn:Hs; simpl.
  - destruct (Decode w resp) as [info|err] eqn:Hdec.
    + destruct (String.eqb (Version info) EmptyString) eqn:Hv; [| done].
      intros [= <-] _. split; [done |]. exists modPath, resp.
      apply String.eqb_eq in Hv. eauto 10.
    + intros [= <-] _. split; [done |]. exists modPath, resp. eauto 10.
  - intros [= <-] _. split; [done |]. exists modPath, resp.
    apply Z.eqb_neq in Hs. eauto.
Qed.

Lemma failf_status errorTemplate msg wrapped w :
  status (failf errorTemplate msg wrapped w) =
    match status w with
    | Some code => Some code
    | None => Some (if errors_Is (fmt_Errorf msg wrapped) id_errServer then 500 else 400)
    end.
Proof.
  unfold failf.
  destruct (errors_Is _ _); cbv beta iota zeta;
    rewrite HTTPProps.status_Write, HTTPProps.status_WriteHeader, !HTTPProps.status_Header_Set;
    by destruct (status w).
Qed.

(** C2, as the code has it: [failf] looks for [errServer] only.  An
    error of remote kind gives status 500 when it wraps [errServer] as
    well, and 400 otherwise; the remote errors of [resolveModuleLatest]
    give 400. *)
Theorem failf_remote_error_status errorTemplate msg e :
  errors_Is e id_errRemote = true →
  final_status (failf errorTemplate msg [e] new_writer) =
    (if errors_Is e id_errServer then 500 else 400) ∧
  (∀ w goproxy mod_, resolveModuleLatest w goproxy mod_ = Err e →
     final_status (failf errorTemplate msg [e] new_writer) = 400).
Proof.
  intros Hr. unfold final_status. rewrite failf_status. simpl.
  rewrite orb_false_r. split; [done |].
  intros w goproxy mod_ He.
  destruct (resolveModuleLatest_errors w goproxy mod_ e He Hr) as [-> _]. done.
Qed.

Lemma failf_remote_error_status_witness :
  final_status
    (failf (λ m, m) "resolving latest"
       [fmt_Errorf "remote: empty version from goproxy" [errRemote]] new_writer) = 400.
Proof.
  apply (proj1 (failf_remote_error_status (λ m, m) "resolving latest"
                  (fmt_Errorf "remote: empty version from goproxy" [errRemote]) eq_refl)).
Defined.

(** The claim as worded fails on the error for a 404 of the proxy. *)
Lemma failf_remote_error_not_500 : ¬ remote_renders_500.
Proof.
  intros H.
  destruct (resolveModuleLatest world_404 "https://proxy.golang.org/" "example.com/x")
    as [info|e] eqn:He; [discriminate |].
  specialize (H (λ m, m) (Error e) e).
  vm_compute in He. injection He as <-.
  specialize (H eq_refl). vm_compute in H. discriminate.
Qed.

End GoproxyProps.

Module HomeProps.
Import HTTP Serve Home.

Lemma lookup_mid {A} (l1 l2 : list A) (x : A) (i : nat) :
  i = length l1 → (l1 ++ x :: l2) !! i = Some x.
Proof. intros ->. by apply list_lookup_middle. Qed.

Lemma insert_mid {A} (l1 l2 : list A) (x y : A) (i : nat) :
  i = length l1 → <[i := y]> (l1 ++ x :: l2) = l1 ++ y :: l2.
Proof. intros ->. rewrite insert_app_r_alt, Nat.sub_diag by lia. done. Qed.

(** The loop swaps its way inwards: with [pre] and [post] already
    exchanged, what is left to do is to reverse [mid]. *)
Lemma index_eq h sl i arr x :
  h !! array sl = Some arr → (i < len sl)%nat →
  arr !! (offset sl + i)%nat = Some x → index h sl i = Some x.
Proof.
  intros Hh Hi Hx. unfold index. by rewrite (proj2 (Nat.ltb_lt _ _) Hi), Hh.
Qed.

Lemma assign_eq h sl i arr x :
  h !! array sl = Some arr → (i < len sl)%nat → (offset sl + i < length arr)%nat →
  assign h sl i x = Some (<[array sl := <[(offset sl + i)%nat := x]> arr]> h).
Proof.
  intros Hh Hi Hx. unfold assign.
  by rewrite (proj2 (Nat.ltb_lt _ _) Hi), Hh, (proj2 (Nat.ltb_lt _ _) Hx).
Qed.

(** The loop swaps its way inwards: with [pre] and [post] already
    exchanged, what is left to do is to reverse [mid]. *)
Lemma reverse_loop_spec k : ∀ (pre mid post : list string) h a n,
  n = (length pre + length mid + length post)%nat →
  length pre = length post →
  (length mid / 2)%nat = k →
  h !! a = Some (pre ++ mid ++ post) →
  reverse_loop k (length pre) n {| array := a; offset := 0; len := n |} h =
    Returns (<[a := pre ++ rev mid ++ post]> h).
Proof.
  induction k as [|k IH]; intros pre mid post h a n Hn Hpp Hk Hh.
  - assert (rev mid = mid) as ->.
    { apply Nat.div_small_iff in Hk; [| lia].
      destruct mid as [|x [|y mid]]; [done | done | simpl in Hk; lia]. }
    simpl. by rewrite insert_id.
  - destruct mid as [|x mid]; [done |].
    destruct mid as [|y mid _] using rev_ind; [done |].
    assert (length (x :: mid ++ [y]) = length mid + 1 * 2)%nat as Hlen
      by (rewrite length_cons, length_app; simpl; lia).
    rewrite Hlen in Hk, Hn.
    rewrite Nat.div_add in Hk by lia.
    assert ((length mid / 2)%nat = k) as Hk' by lia.
    set (sl := {| array := a; offset := 0; len := n |}).
    assert (n - 1 - length pre = length (pre ++ x :: mid))%nat as Hj
      by (rewrite length_app; simpl; lia).
    assert (pre ++ (x :: mid ++ [y]) ++ post = (pre ++ x :: mid) ++ y :: post) as E1
      by (by rewrite <- !app_assoc; simpl; rewrite <- app_assoc).
    assert (pre ++ (x :: mid ++ [y]) ++ post = pre ++ x :: (mid ++ y :: post)) as E2
      by (by simpl; rewrite <- app_assoc).
    assert (length (pre ++ (x :: mid ++ [y]) ++ post) = n) as Hlarr
      by (rewrite !length_app, Hlen; lia).
    assert (length (pre ++ x :: mid) < n)%nat as Hjn by (rewrite <- Hj; lia).
    assert (length pre < n)%nat as Hin by lia.
    cbn [reverse_loop]. rewrite Hj.
    rewrite (index_eq h sl _ _ y Hh); [| done | by rewrite E1; apply lookup_mid].
    rewrite (index_eq h sl _ _ x Hh); [| done | by rewrite E2; apply lookup_mid].
    rewrite (assign_eq h sl _ _ y Hh); [| done | unfold sl; cbn [offset]; rewrite Hlarr; lia].
    cbn [array offset sl]. rewrite E2 at 1. rewrite insert_mid by done.
    rewrite (assign_eq _ sl _ (pre ++ y :: mid ++ y :: post) x);
      [| by rewrite lookup_insert_eq | done
       | unfold sl; cbn [offset]; rewrite !length_app; simpl; rewrite !length_app; simpl; lia].
    cbn [array offset sl]. rewrite insert_insert_eq.
    replace (pre ++ y :: mid ++ y :: post) with ((pre ++ y :: mid) ++ y :: post)
      by (by rewrite <- app_assoc).
    rewrite insert_mid by (rewrite !length_app; simpl; lia).
    replace ((pre ++ y :: mid) ++ x :: post) with ((pre ++ [y]) ++ mid ++ (x :: post))
      by (by rewrite <- !app_assoc).
    replace (S (length pre)) with (length (pre ++ [y]))
      by (rewrite length_app; simpl; lia).
    unfold sl. rewrite (IH (pre ++ [y]) mid (x :: post)).
    + rewrite insert_insert_eq. f_equal. f_equal.
      simpl. rewrite rev_app_distr. simpl. by rewrite <- !app_assoc.
    + rewrite length_app. simpl. lia.
    + rewrite length_app. simpl. lia.
    + done.
    + by rewrite lookup_insert_eq.
Qed.

Lemma elems_whole h a (xs : list string) :
  h !! a = Some xs → elems h {| array := a; offset := 0; len := length xs |} = xs.
Proof. intros Hh. unfold elems. simpl. rewrite Hh. simpl. by rewrite take_ge. Qed.

(** The landing page works on a copy: the store keeps every backing
    array it had, and the template receives the links reversed. *)
Lemma landing_spec x cfg st w :
  ∃ h2,
    landing x cfg st w =
      Returns ({| heap := h2; recentBuilds_links := recentBuilds_links st |},
               render_home x cfg (rev (elems (heap st) (recentBuilds_links st))) w) ∧
    (∀ a, a ∈ dom (heap st) → h2 !! a = heap st !! a) ∧
    elems h2 (recentBuilds_links st) = elems (heap st) (recentBuilds_links st).
Proof.
  set (xs := elems (heap st) (recentBuilds_links st)).
  set (a := fresh (dom (heap st))).
  exists (<[a := rev xs]> (heap st)).
  assert (heap st !! a = None) as Hfresh by (apply not_elem_of_dom, is_fresh).
  split; [| split].
  - unfold landing, append_fresh. fold xs. fold a. cbn [len].
    pose proof (reverse_loop_spec (length xs / 2) [] xs [] (<[a := xs]> (heap st)) a (length xs))
      as Hloop.
    cbn [length app] in Hloop. rewrite app_nil_r in Hloop.
    rewrite Hloop; [| lia | done | done | by rewrite lookup_insert_eq].
    rewrite app_nil_r, insert_insert_eq.
    replace (length xs) with (length (rev xs)) by apply length_rev.
    rewrite (elems_whole _ _ (rev xs)) by (by rewrite lookup_insert_eq).
    unfold render_home.
    destruct (homeTemplate x _) as [out [err|]]; reflexivity.
  - intros b Hb. rewrite lookup_insert_ne; [done |].
    intros <-. apply elem_of_dom in Hb as [? Hb]. congruence.
  - unfold elems. destruct (decide (a = array (recentBuilds_links st))) as [Ha | Ha].
    + assert (heap st !! array (recentBuilds_links st) = None) as Hnone by (by rewrite <- Ha).
      assert (xs = []) as Hxs.
      { unfold xs, elems. rewrite Hnone. simpl. by rewrite drop_nil, take_nil. }
      rewrite Hxs, Ha, lookup_insert_eq. simpl. by rewrite drop_nil, take_nil.
    + by rewrite lookup_insert_ne.
Qed.

(** C10: a GET of the landing page leaves [recentBuilds.links] and
    every backing array of the store as they were, so the links read
    the same afterwards, and the page is rendered from those links in
    reverse order. *)
Theorem serveHome_keeps_recentBuilds x cfg st r w :
  Method r = "GET" → Path r = "/" → FormValue r "m" = EmptyString →
  ∃ st',
    serveHome x cfg st r w =
      Returns (st', render_home x cfg (rev (elems (heap st) (recentBuilds_links st))) w) ∧
    recentBuilds_links st' = recentBuilds_links st ∧
    (∀ a, a ∈ dom (heap st) → heap st' !! a = heap st !! a) ∧
    elems (heap st') (recentBuilds_links st') = elems (heap st) (recentBuilds_links st).
Proof.
  intros Hm Hp Hf. unfold serveHome. rewrite Hm, Hp, Hf. simpl.
  destruct (landing_spec x cfg st w) as (h2 & -> & Hdom & Hel).
  eexists. split; [reflexivity |]. simpl. done.
Qed.

Lemma serveHome_keeps_recentBuilds_witness :
  ∃ st',
    serveHome sample_site sample_config sample_state (get "/") new_writer =
      Returns (st', {| header := ∅; status := Some 200;
                       body := "/c" +:+ newline +:+ "/b" +:+ newline +:+ "/a" |}) ∧
    elems (heap st') (recentBuilds_links st') = ["/a"; "/b"; "/c"].
Proof.
  destruct (serveHome_keeps_recentBuilds sample_site sample_config sample_state
              (get "/") new_writer eq_refl eq_refl eq_refl) as (st' & Hs & _ & _ & He).
  exists st'. split; [exact Hs | exact He].
Defined.

Example route_robots :
  mux_Handler (routes sample_site sample_config) (post "/robots.txt") = Handler HRobots.
Proof. reflexivity. Qed.

Example route_legacy :
  mux_Handler (routes sample_site sample_config) (get "/m/example.com/x") = Handler HLegacy.
Proof. reflexivity. Qed.

Example route_legacy_bare :
  mux_Handler (routes sample_site sample_config) (get "/m") = MovedPermanently "/m/".
Proof. reflexivity. Qed.

Example route_unclean :
  mux_Handler (routes sample_site sample_config) (post "/example.com//x") =
    MovedPermanently "/example.com/x".
Proof. reflexivity. Qed.

Example route_home :
  mux_Handler (routes sample_site sample_config) (get "/example.com/x") = Handler HHome.
Proof. reflexivity. Qed.

Lemma HasPrefix_length s pre :
  HasPrefix s pre = true → (String.length pre <= String.length s)%nat.
Proof.
  unfold HasPrefix. revert s. induction pre as [|c pre IH]; intros s; [simpl; lia |].
  destruct s as [|d s]; [discriminate |]. simpl.
  destruct (ascii_dec c d); [| discriminate]. intros ?%IH. lia.
Qed.

Lemma registered_elem_of {H} (m : list (string * H)) pat h :
  registered m pat = Some h → (pat, h) ∈ m.
Proof.
  induction m as [|[p h'] m IH]; simpl; [discriminate |].
  destruct (String.eqb p pat) eqn:E.
  - apply String.eqb_eq in E. intros [= ->]. subst. apply list_elem_of_here.
  - intros ?%IH. by apply list_elem_of_further.
Qed.

Lemma longest_prefix_elem_of {H} (m : list (string * H)) path best pat h :
  longest_prefix m path best = Some (pat, h) →
  best = Some (pat, h) ∨ ((pat, h) ∈ m ∧ HasPrefix path pat = true).
Proof.
  revert best. induction m as [|[p h'] m IH]; intros best; simpl; [by left |].
  destruct (HasSuffix_slash p && HasPrefix path p && _) eqn:E.
  - intros [[= -> ->] | [Hin Hp]]%IH.
    + right. split; [apply list_elem_of_here |].
      by apply andb_true_iff in E as [[_ ?]%andb_true_iff _].
    + right. split; [by apply list_elem_of_further | done].
  - intros [? | [Hin Hp]]%IH; [by left |].
    right. split; [by apply list_elem_of_further | done].
Qed.

(** A request routed to a legacy handler has a path of three bytes at
    least. *)
Lemma legacy_path_length x cfg path :
  mux_match (routes x cfg) path = Some HLegacy → (3 <= String.length path)%nat.
Proof.
  assert (∀ pat, (pat, HLegacy) ∈ routes x cfg → String.length pat = 3%nat) as Hpat.
  { intros pat. unfold routes. rewrite !elem_of_app, !elem_of_cons.
    intros [Hin | [Hin | Hin]].
    - repeat (destruct Hin as [[=] | Hin]). by apply elem_of_nil in Hin.
    - destruct (String.eqb (SignerKey cfg) EmptyString); [by apply elem_of_nil in Hin |].
      apply list_elem_of_fmap in Hin as (? & [=] & _).
    - repeat (destruct Hin as [[=] | Hin]); subst; try done. by apply elem_of_nil in Hin. }
  unfold mux_match. destruct (registered _ path) as [h|] eqn:Hr.
  - intros [= ->]. apply registered_elem_of, Hpat in Hr. lia.
  - destruct (longest_prefix _ path None) as [[pat h]|] eqn:Hl; [| discriminate].
    simpl. intros [= ->].
    apply longest_prefix_elem_of in Hl as [[=] | [Hin Hp]].
    apply Hpat in Hin. apply HasPrefix_length in Hp. lia.
Qed.

Lemma mux_Handler_match {H} (m : list (string * H)) r hd :
  mux_Handler m r = Handler hd → mux_match m (Path r) = Some hd.
Proof.
  unfold mux_Handler, mux_handler.
  repeat case_match; try discriminate; by intros [= ->].
Qed.

(** C8, as the code has it: only [serveHome] looks at the method.  A
    request that is not a GET is answered with 405 when the mux hands
    it to [serveHome]; the handlers of the legacy prefixes answer 307
    and those of robots.txt, the icons, the image and emptyconfig
    answer 200, whatever the method. *)
Theorem non_GET_status x cfg st r hd :
  Method r ≠ "GET" →
  mux_Handler (routes x cfg) r = Handler hd →
  hd ≠ HTlog →
  ∃ w, ServeHTTP x cfg st r = Returns (st, w) ∧
       final_status w = match hd with
                        | HHome => StatusMethodNotAllowed
                        | HLegacy => StatusTemporaryRedirect
                        | _ => 200
                        end.
Proof.
  intros Hm Hh Hne. unfold ServeHTTP. rewrite Hh.
  destruct hd; try done; simpl.
  1-4, 6: eexists; split; [reflexivity | reflexivity].
  - eexists; split; [reflexivity |]. unfold final_status, io_Copy.
    destruct (String.eqb _ _); [done |]. by rewrite HTTPProps.status_Write.
  - apply mux_Handler_match, legacy_path_length in Hh.
    destruct (String.length (Path r) <? 2)%nat eqn:E; [apply Nat.ltb_lt in E; lia |].
    eexists; split; [reflexivity |]. unfold final_status.
    by rewrite HTTPProps.status_Redirect.
  - unfold serveHome. apply String.eqb_neq in Hm. rewrite Hm. simpl.
    eexists; split; [reflexivity | reflexivity].
Qed.

Lemma non_GET_status_witness :
  ∃ w, ServeHTTP sample_site sample_config sample_state
         (post "/example.com/cmd/@v/v1.0.0/linux-amd64-go1.21.0/") = Returns (sample_state, w) ∧
       final_status w = StatusMethodNotAllowed.
Proof.
  apply (non_GET_status sample_site sample_config sample_state
           (post "/example.com/cmd/@v/v1.0.0/linux-amd64-go1.21.0/") HHome);
    [discriminate | reflexivity | discriminate].
Defined.

(** The claim as worded fails: a POST of /robots.txt is answered with
    200. *)
Lemma post_robots_txt_is_200 : ¬ non_GET_gets_405.
Proof.
  intros H.
  destruct (H sample_site sample_config sample_state (post "/robots.txt"))
    as (st' & w & Hs & Hw); [discriminate |].
  vm_compute in Hs. injection Hs as <- <-. vm_compute in Hw. discriminate.
Qed.

End HomeProps.

Module SumStateProps.
Import Serve SumState.

Example verifySumState_one : verifySumState world_one = Returns (1, None).
Proof. reflexivity. Qed.

Example verifySumState_cut :
  ∃ e, verifySumState world_cut = Returns (-1, Some e).
Proof. eexists. reflexivity. Qed.

Lemma wrap64_representable z : int64_range z → wrap64 z = z.
Proof. unfold int64_range, wrap64. intros H. rewrite Z.mod_small; lia. Qed.

Lemma first_mismatch_None hashes buf : ∀ i,
  first_mismatch i hashes buf = None →
  ∀ k h, hashes !! k = Some h → String.substring ((i + k) * 32) 32 buf = h.
Proof.
  induction hashes as [|h0 hashes IH]; intros i Hf k h Hk; [done |].
  simpl in Hf. destruct (String.eqb h0 _) eqn:E; [| done].
  destruct k as [|k]; simpl in Hk.
  - injection Hk as <-. apply String.eqb_eq in E. by rewrite Nat.add_0_r.
  - replace (i + S k)%nat with (S i + k)%nat by lia. by apply IH.
Qed.

(** What [verify_artifact] has checked when it returns no error. *)
Lemma verify_artifact_ok w n last rec r :
  verify_artifact w n last rec = (r, None) →
  r = n ∧
  (∃ buf, ReadFile w (filepath_Join (storeDir w rec) "recordnumber") = Ok buf ∧
          ParseInt buf = Some last) ∧
  (∃ f gzr, Open w (filepath_Join (storeDir w rec) "binary.gz") = Ok f ∧
            NewReader w (data f) = Ok gzr ∧ read_err gzr = None ∧
            "0" +:+ EncodeToString w (String.substring 0 20 (sha256_Sum w (plain gzr)))
              = record_Sum w rec).
Proof.
  unfold verify_artifact, errorf.
  destruct (ReadFile w _) as [buf|] eqn:Hrf; [| done].
  destruct (ParseInt buf) as [num|] eqn:Hpi; [| done].
  destruct (num =? last) eqn:Hnum; [| done]. apply Z.eqb_eq in Hnum as ->. cbn [negb].
  destruct (Open w _) as [f|] eqn:Hop; [| done].
  destruct (NewReader w _) as [gzr|] eqn:Hnr; [| done].
  destruct (read_err gzr) eqn:Hre; [done |].
  match goal with
  | |- context [String.eqb ?a ?b] => destruct (String.eqb a b) eqn:Hsum; [| done]
  end.
  apply String.eqb_eq in Hsum. cbn [negb].
  destruct (close_err f); [done |].
  intros [= <-]. eauto 10.
Qed.

(** Every return of [verify_artifact] is the count with a nil error, or
    -1 with an error. *)
Lemma verify_artifact_shape w n last rec :
  verify_artifact w n last rec = (n, None) ∨
  ∃ e, verify_artifact w n last rec = (-1, Some e).
Proof.
  unfold verify_artifact, errorf.
  repeat (case_match; eauto).
Qed.

(** What [verifySumState] has checked when it returns no error, in
    the arithmetic of the machine. *)
Lemma verifySumState_ok w r :
  verifySumState w = Returns (r, None) →
  ∃ n, treeSize w = Ok n ∧ r = n ∧
       Stat (hashesFile w) = Ok (mul64 (StoredHashCount w n) HashSize) ∧
       (n ≠ 0 →
        ∃ records0 rest hashes buf rec,
          ReadRecords w (sub64 n 1) 1 = Ok (records0 :: rest) ∧
          StoredHashes w (sub64 n 1) records0 = Ok hashes ∧
          ReadAt (hashesFile w) (length hashes * 32)
                 (mul64 (StoredHashIndex w 0 (sub64 n 1)) HashSize) = Ok buf ∧
          (∀ i h, hashes !! i = Some h → String.substring (i * 32) 32 buf = h) ∧
          parseRecord w records0 = Ok rec ∧
          verify_artifact w n (sub64 n 1) rec = (n, None)).
Proof.
  unfold verifySumState, errorf.
  destruct (treeSize w) as [n|] eqn:Ht; [| done].
  destruct (Stat (hashesFile w)) as [size|] eqn:Hs; [| done].
  destruct (mul64 _ _ =? size) eqn:Hsz; [| done]. apply Z.eqb_eq in Hsz. cbn [negb].
  destruct (n =? 0) eqn:Hn.
  { apply Z.eqb_eq in Hn. intros [= <-]. exists n. subst n. by rewrite Hsz. }
  apply Z.eqb_neq in Hn.
  destruct (ReadRecords w _ 1) as [[|records0 rest]|] eqn:Hr; [done | | done].
  destruct (StoredHashes w _ records0) as [hashes|] eqn:Hh; [| done].
  destruct (ReadAt _ _ _) as [buf|] eqn:Hra; [| done].
  destruct (first_mismatch 0 hashes buf) eqn:Hfm; [done |].
  destruct (parseRecord w records0) as [rec|] eqn:Hp; [| done].
  intros [= Hv]. destruct (verify_artifact_ok _ _ _ _ _ Hv) as [-> _].
  exists n. rewrite Hsz. repeat split; try done. intros _.
  exists records0, rest, hashes, buf, rec. repeat split; try done.
  intros i h Hi. by apply (first_mismatch_None hashes buf 0%nat Hfm i h).
Qed.

(** The three ways out of [verifySumState]: the count and no error, -1
    and an error, or a panic on an empty answer of [ReadRecords]. *)
Lemma verifySumState_shape w :
  (∃ n, treeSize w = Ok n ∧ verifySumState w = Returns (n, None)) ∨
  (∃ e, verifySumState w = Returns (-1, Some e)) ∨
  (verifySumState w = Panics ∧ ∃ id, ReadRecords w id 1 = Ok []).
Proof.
  unfold verifySumState, errorf.
  destruct (treeSize w) as [n|] eqn:Ht; [| by eauto].
  destruct (Stat (hashesFile w)) as [size|] eqn:Hs; [| by eauto].
  destruct (mul64 _ _ =? size) eqn:Hsz; [| by eauto]. cbn [negb].
  destruct (n =? 0) eqn:Hn.
  { apply Z.eqb_eq in Hn. subst n. by eauto. }
  destruct (ReadRecords w _ 1) as [[|records0 rest]|] eqn:Hr; [by eauto 10 | | by eauto].
  destruct (StoredHashes w _ records0) as [hashes|] eqn:Hh; [| by eauto].
  destruct (ReadAt _ _ _) as [buf|] eqn:Hra; [| by eauto].
  destruct (first_mismatch 0 hashes buf) eqn:Hfm; [by eauto |].
  destruct (parseRecord w records0) as [rec|] eqn:Hp; [| by eauto].
  destruct (verify_artifact_shape w n (sub64 n 1) rec) as [-> | [e ->]]; by eauto.
Qed.

(** The one way to a panic: the size of the hashes file was accepted
    and the last record was asked for, but none came back. *)
Lemma verifySumState_Panics w :
  verifySumState w = Panics →
  ∃ n, treeSize w = Ok n ∧ n ≠ 0 ∧
       Stat (hashesFile w) = Ok (mul64 (StoredHashCount w n) HashSize) ∧
       ReadRecords w (sub64 n 1) 1 = Ok [].
Proof.
  unfold verifySumState, errorf.
  destruct (treeSize w) as [n|] eqn:Ht; [| done].
  destruct (Stat (hashesFile w)) as [size|] eqn:Hs; [| done].
  destruct (mul64 _ _ =? size) eqn:Hsz; [| done]. apply Z.eqb_eq in Hsz. cbn [negb].
  destruct (n =? 0) eqn:Hn; [done |]. apply Z.eqb_neq in Hn.
  destruct (ReadRecords w _ 1) as [[|records0 rest]|] eqn:Hr;
    [intros _; exists n; by rewrite Hsz | | done].
  destruct (StoredHashes w _ records0) as [hashes|] eqn:Hh; [| done].
  destruct (ReadAt _ _ _) as [buf|] eqn:Hra; [| done].
  destruct (first_mismatch 0 hashes buf) eqn:Hfm; [done |].
  destruct (parseRecord w records0) as [rec|] eqn:Hp; done.
Qed.

(** C1: for a log of [n] records, with the sizes at hand representable
    in [int64]: when [verifySumState] returns without error it returns
    [n], the hashes file has 32 bytes for each stored hash of [n]
    records and, when [n > 0], the hashes of the last record are the
    bytes of the hashes file, its recordnumber file holds [n - 1] and
    its sum is that of the decompressed binary; when one of these
    fails, the call returns -1 and an error, provided that, when
    [n > 0], the one call [ReadRecords(n - 1, 1)] does not answer with
    no record and no error; when [n = 0] the size alone decides, and 0
    is returned. *)
Theorem verifySumState_verifies w n :
  treeSize w = Ok n → representable w n →
  (∀ r, verifySumState w = Returns (r, None) →
        r = n ∧ size_consistent w n ∧
        (0 < n → hashes_consistent w n ∧ recordnumber_consistent w n ∧ sum_consistent w n)) ∧
  ((0 < n → ReadRecords_returns_records w (n - 1)) →
   ¬ (size_consistent w n ∧
      (0 < n → hashes_consistent w n ∧ recordnumber_consistent w n ∧ sum_consistent w n)) →
   ∃ e, verifySumState w = Returns (-1, Some e)) ∧
  (n = 0 → size_consistent w n → verifySumState w = Returns (0, None)).
Proof.
  intros Ht (Hn & Hc & Hi).
  assert (mul64 (StoredHashCount w n) HashSize = 32 * StoredHashCount w n) as Hmul.
  { unfold mul64. rewrite wrap64_representable by done. unfold HashSize. lia. }
  assert (∀ r, verifySumState w = Returns (r, None) →
        r = n ∧ size_consistent w n ∧
        (0 < n → hashes_consistent w n ∧ recordnumber_consistent w n ∧ sum_consistent w n))
    as Hok.
  { intros r Hv. apply verifySumState_ok in Hv as (n' & Ht' & -> & Hs & Hlast).
    rewrite Ht in Ht'. injection Ht' as <-.
    split; [done |]. split; [unfold size_consistent; by rewrite <- Hmul |].
    intros Hpos.
    destruct Hlast as (records0 & rest & hashes & buf & rec & Hr & Hh & Hra & Hb & Hp & Hv);
      [lia |].
    assert (sub64 n 1 = n - 1) as Hsub.
    { unfold sub64. apply wrap64_representable. unfold int64_range in *. lia. }
    assert (mul64 (StoredHashIndex w 0 (n - 1)) HashSize = 32 * StoredHashIndex w 0 (n - 1))
      as Hmul'.
    { unfold mul64. rewrite wrap64_representable by auto. unfold HashSize. lia. }
    rewrite Hsub in *. rewrite Hmul' in Hra.
    apply verify_artifact_ok in Hv as (_ & (rbuf & Hrf & Hpi) & (f & gzr & Hop & Hnr & Hre & Hsum)).
    split; [| split].
    - by exists records0, rest, hashes, buf.
    - by exists records0, rest, rec, rbuf.
    - by exists records0, rest, rec, f, gzr. }
  split; [exact Hok |]. split.
  - intros Hrr Hnot.
    destruct (verifySumState_shape w) as [(n' & Ht' & Hv) | [He | (Hp & _)]].
    + exfalso. apply Hnot. by destruct (Hok _ Hv) as (_ & ? & ?).
    + done.
    + exfalso. apply verifySumState_Panics in Hp as (n' & Ht' & Hn0 & Hs & Hr).
      rewrite Ht in Ht'. injection Ht' as <-.
      destruct (decide (0 < n)) as [Hpos | Hneg].
      * apply (Hrr Hpos). rewrite <- Hr. f_equal.
        unfold sub64. symmetry. apply wrap64_representable.
        unfold int64_range in *. lia.
      * apply Hnot. split; [unfold size_consistent; by rewrite <- Hmul | lia].
  - intros -> Hs. unfold verifySumState. rewrite Ht, Hs, Hmul, Z.eqb_refl. done.
Qed.

Lemma verifySumState_verifies_witness :
  (size_consistent world_one 1 ∧ hashes_consistent world_one 1 ∧
   recordnumber_consistent world_one 1 ∧ sum_consistent world_one 1) ∧
  (∃ e, verifySumState world_cut = Returns (-1, Some e)) ∧
  (∃ e, verifySumState world_newline = Returns (-1, Some e)).
Proof.
  assert (∀ w, StoredHashCount w = StoredHashCount world_one →
               StoredHashIndex w = StoredHashIndex world_one →
               representable w 1) as Hrep.
  { intros w Hc Hi. unfold representable, int64_range, HashSize.
    rewrite Hc, Hi. simpl. lia. }
  split; [| split].
  - destruct (verifySumState_verifies world_one 1 eq_refl (Hrep _ eq_refl eq_refl))
      as [Hok _].
    destruct (Hok 1 eq_refl) as (_ & Hs & Hrest).
    split; [exact Hs |]. apply Hrest. lia.
  - destruct (verifySumState_verifies world_cut 1 eq_refl (Hrep _ eq_refl eq_refl))
      as (_ & Herr & _).
    apply Herr.
    + intros _. discriminate.
    + intros [Hs _]. vm_compute in Hs. discriminate.
  - destruct (verifySumState_verifies world_newline 1 eq_refl (Hrep _ eq_refl eq_refl))
      as (_ & Herr & _).
    apply Herr.
    + intros _. discriminate.
    + intros [_ Hlast].
      destruct Hlast as (_ & (records0 & rest & rec & buf & _ & _ & Hrf & Hpi) & _); [lia |].
      injection Hrf as <-. vm_compute in Hpi. discriminate.
Defined.

End SumStateProps.

(** * Further properties of the code *)

Module ServeExtra.
Import HTTP Serve.

Lemma Split_length s c : length (Split s c) = S (count_byte c s).
Proof.
  induction s as [|d s IH]; [done |]. simpl.
  destruct (Ascii.eqb d c); simpl; [by rewrite IH |].
  destruct (Split s c) as [|x r]; [done |]. simpl in *. lia.
Qed.

Lemma Split_single s c : count_byte c s = 0%nat → Split s c = [s].
Proof.
  induction s as [|d s IH]; [done |]. simpl.
  destruct (Ascii.eqb d c); [done |]. intros H. by rewrite IH.
Qed.

Lemma Split_lookup_0 s c : Split s c !! 0%nat = Some (hd EmptyString (Split s c)).
Proof. pose proof (Split_length s c). by destruct (Split s c). Qed.

Lemma acceptsGzip_loop_second t t1 es :
  t !! 1%nat = Some t1 →
  acceptsGzip_loop t es = Returns (existsb (entry_accepted t1) es).
Proof.
  intros Ht. induction es as [|e es IH]; [done |].
  cbn [acceptsGzip_loop existsb]. rewrite Ht, Split_lookup_0, IH.
  unfold entry_accepted, has_params, entry_name.
  rewrite Split_length.
  destruct (count_byte ";" (TrimSpace e)) as [|k]; simpl.
  - by destruct (String.eqb (hd EmptyString _) "gzip").
  - destruct (String.eqb t1 "q=0"); [done |].
    by destruct (String.eqb (hd EmptyString _) "gzip").
Qed.

Lemma acceptsGzip_single h :
  acceptsGzip_loop [h] [h] =
    if has_params h then Panics else Returns (String.eqb (entry_name h) "gzip").
Proof.
  cbn [acceptsGzip_loop]. rewrite Split_lookup_0. unfold has_params, entry_name.
  rewrite Split_length.
  destruct (count_byte ";" (TrimSpace h)) as [|k]; simpl.
  - by destruct (String.eqb (hd EmptyString _) "gzip").
  - done.
Qed.

(** X1: [acceptsGzip] panics exactly when the header has no comma (one
    entry) and that entry, trimmed, contains a semicolon. *)
Theorem acceptsGzip_panics_iff r :
  acceptsGzip r = Panics ↔
  count_byte "," (Header_Get r "Accept-Encoding") = 0%nat ∧
  (0 < count_byte ";" (TrimSpace (Header_Get r "Accept-Encoding")))%nat.
Proof.
  unfold acceptsGzip. set (h := Header_Get r "Accept-Encoding").
  destruct (count_byte "," h) as [|k] eqn:Hc.
  - rewrite (Split_single h "," Hc), acceptsGzip_single. unfold has_params.
    destruct (Nat.ltb_spec 0 (count_byte ";" (TrimSpace h))); split; try done.
    + intros [_ ?]. lia.
  - pose proof (Split_length h ",") as Hl. rewrite Hc in Hl.
    destruct (Split h ",") as [|t0 [|t1 t]] eqn:Hs; [done | simpl in Hl; lia |].
    rewrite (acceptsGzip_loop_second _ t1) by done.
    split; [done | intros [? _]; done].
Qed.

(** X2: when no entry of the header carries a parameter, [acceptsGzip]
    does not panic and answers as the specification reads: true exactly
    when some entry is gzip. *)
Theorem acceptsGzip_without_params r :
  Forall (λ e, count_byte ";" (TrimSpace e) = 0%nat)
         (Split (Header_Get r "Accept-Encoding") ",") →
  acceptsGzip r = Returns (lists_gzip (Header_Get r "Accept-Encoding")).
Proof.
  intros H. unfold acceptsGzip, lists_gzip.
  apply ServeProps.acceptsGzip_loop_no_params.
  eapply Forall_impl; [exact H |]. intros e He. simpl in He.
  by rewrite Split_length, He.
Qed.

Lemma acceptsGzip_without_params_witness :
  acceptsGzip (request_accepting "deflate, gzip") = Returns true ∧
  acceptsGzip (request_accepting (no_break_space +:+ "gzip")) = Returns true.
Proof.
  split.
  - apply (acceptsGzip_without_params (request_accepting "deflate, gzip")).
    repeat constructor.
  - apply (acceptsGzip_without_params (request_accepting (no_break_space +:+ "gzip"))).
    repeat constructor.
Defined.

Lemma existsb_pointwise {A} (f g : A → bool) (l : list A) :
  (∀ x, f x = g x) → existsb f l = existsb g l.
Proof. intros H. induction l as [|x l IH]; [done |]. simpl. by rewrite H, IH. Qed.

(** X3: with two entries or more the test on the quality reads the
    second entry of the header.  When that entry is not exactly "q=0",
    parameters are ignored: gzip is accepted as soon as some entry is
    named gzip, whatever its quality.  When it is "q=0", every entry
    with a parameter is skipped, whatever the parameter. *)
Theorem acceptsGzip_reads_second_entry r t0 t1 t :
  Split (Header_Get r "Accept-Encoding") "," = t0 :: t1 :: t →
  (t1 ≠ "q=0" →
   acceptsGzip r =
     Returns (existsb (λ e, String.eqb (entry_name e) "gzip") (t0 :: t1 :: t))) ∧
  (t1 = "q=0" →
   acceptsGzip r =
     Returns (existsb (λ e, negb (has_params e) && String.eqb (entry_name e) "gzip")
                      (t0 :: t1 :: t))).
Proof.
  intros Hs. unfold acceptsGzip. rewrite Hs.
  rewrite (acceptsGzip_loop_second _ t1) by done.
  split; intros Ht.
  - apply String.eqb_neq in Ht. f_equal. apply existsb_pointwise. intros e.
    unfold entry_accepted. by rewrite Ht, andb_false_r.
  - apply String.eqb_eq in Ht. f_equal. apply existsb_pointwise. intros e.
    unfold entry_accepted. rewrite Ht, andb_true_r. by destruct (has_params e).
Qed.

Lemma acceptsGzip_reads_second_entry_witness :
  acceptsGzip (request_accepting "gzip;q=1,q=0") = Returns false ∧
  acceptsGzip (request_accepting (no_break_space +:+ "gzip,x")) = Returns true.
Proof.
  split.
  - apply (proj2 (acceptsGzip_reads_second_entry (request_accepting "gzip;q=1,q=0")
                    "gzip;q=1" "q=0" [] eq_refl) eq_refl).
  - apply (proj1 (acceptsGzip_reads_second_entry
                    (request_accepting (no_break_space +:+ "gzip,x"))
                    (no_break_space +:+ "gzip") "x" [] eq_refl)).
    discriminate.
Defined.

Lemma header_failf errorTemplate msg wrapped w :
  header (failf errorTemplate msg wrapped w) =
    <["X-Content-Type-Options" := "nosniff"]>
      (<["Content-Type" := "text/html; charset=utf-8"]> (header w)).
Proof.
  unfold failf. destruct (errors_Is _ _); cbv beta iota zeta;
    rewrite HTTPProps.header_Write; unfold WriteHeader; simpl;
    by destruct (status w).
Qed.

(** X4: the four answers of [serveLog] on a fresh response.  A file
    that cannot be opened gives the error page with status 500, before
    the request is looked at.  A client accepting gzip gets the stored
    bytes as they are, as text/plain under Content-Encoding gzip.  Any
    other client gets the decompressed bytes without Content-Encoding,
    or, when the stored bytes are no gzip stream, the error page with
    status 500 and type text/html. *)
Theorem serveLog_responses errorTemplate Open NewReader r p :
  match Open p with
  | Err _ =>
      ∃ w, serveLog errorTemplate Open NewReader r p new_writer = Returns w ∧
           final_status w = 500 ∧
           header w !! "Content-Type" = Some "text/html; charset=utf-8"
  | Ok src =>
      match acceptsGzip r with
      | Panics => serveLog errorTemplate Open NewReader r p new_writer = Panics
      | Returns true =>
          ∃ w, serveLog errorTemplate Open NewReader r p new_writer = Returns w ∧
               final_status w = 200 ∧
               header w !! "Content-Type" = Some "text/plain; charset=utf-8" ∧
               header w !! "Content-Encoding" = Some "gzip" ∧
               body w = src
      | Returns false =>
          match NewReader src with
          | Ok gzr =>
              ∃ w, serveLog errorTemplate Open NewReader r p new_writer = Returns w ∧
                   final_status w = 200 ∧
                   header w !! "Content-Type" = Some "text/plain; charset=utf-8" ∧
                   header w !! "Content-Encoding" = None ∧
                   body w = plain gzr
          | Err _ =>
              ∃ w, serveLog errorTemplate Open NewReader r p new_writer = Returns w ∧
                   final_status w = 500 ∧
                   header w !! "Content-Type" = Some "text/html; charset=utf-8" ∧
                   header w !! "Content-Encoding" = None
          end
      end
  end.
Proof.
  unfold serveLog. destruct (Open p) as [src|err].
  - unfold serveGzipFile. destruct (acceptsGzip r) as [[|]|]; [| | done].
    + eexists. split; [reflexivity |].
      rewrite ServeProps.status_io_Copy, ServeProps.header_io_Copy,
        ServeProps.body_io_Copy.
      repeat split.
    + destruct (NewReader src) as [gzr|err].
      * eexists. split; [reflexivity |].
        rewrite ServeProps.status_io_Copy, ServeProps.header_io_Copy,
          ServeProps.body_io_Copy.
        repeat split.
      * eexists. split; [reflexivity |].
        unfold final_status. rewrite GoproxyProps.failf_status, header_failf.
        repeat split.
  - eexists. split; [reflexivity |].
    unfold final_status. rewrite GoproxyProps.failf_status, header_failf.
    repeat split.
Qed.

(** A client that names gzip after a no-break space is sent the stored
    bytes. *)
Example serveLog_no_break_space :
  ∃ w, serveLog (λ m, m) (λ _, Ok "stored")
         (λ _, Ok {| plain := "plain"; read_err := None |})
         (request_accepting (no_break_space +:+ "gzip")) "log.gz" new_writer = Returns w ∧
       header w !! "Content-Encoding" = Some "gzip" ∧ body w = "stored".
Proof. eexists. split; [reflexivity |]. by vm_compute. Qed.

End ServeExtra.

Module HomeExtra.
Import HTTP Serve Home.

(** X5: [serveHome] panics exactly on a GET whose path is empty, which
    the mux never hands over; in particular the slice of the path and
    the reversal of the copied links never index out of range. *)
Theorem serveHome_panics_iff x cfg st r w :
  serveHome x cfg st r w = Panics ↔ Method r = "GET" ∧ Path r = EmptyString.
Proof.
  unfold serveHome.
  destruct (String.eqb (Method r) "GET") eqn:Hm; simpl.
  2:{ apply String.eqb_neq in Hm. split; [done | by intros [? _]]. }
  apply String.eqb_eq in Hm.
  destruct (String.eqb (Path r) "/") eqn:Hp.
  - apply String.eqb_eq in Hp.
    destruct (String.eqb (FormValue r "m") EmptyString); simpl.
    + destruct (HomeProps.landing_spec x cfg st w) as (h2 & -> & _).
      split; [done |]. intros [_ He]. rewrite He in Hp. done.
    + split; [done |]. intros [_ He]. rewrite He in Hp. done.
  - destruct (Path r) as [|c rest] eqn:Hpath; [done |].
    rewrite ServeExtra.Split_lookup_0.
    split; [| by intros [_ ?]].
    repeat case_match; done.
Qed.

Lemma body_failf errorTemplate msg wrapped w :
  body (failf errorTemplate msg wrapped w) =
    body w +:+ errorTemplate
      ((if errors_Is (fmt_Errorf msg wrapped) id_errServer
        then "500 - internal server error - " else "400 - bad request - ") +:+ msg).
Proof.
  unfold failf. destruct (errors_Is _ _); cbv beta iota zeta;
    rewrite HTTPProps.body_Write; unfold WriteHeader; simpl;
    by destruct (status w).
Qed.

(** X6: when the template of the landing page fails, the error page
    is appended to what the template wrote.  The status is 500 only if
    the template had written nothing; otherwise the status 200 sent
    with the first bytes stays, the later WriteHeader being ignored. *)
Theorem serveHome_template_error x cfg st r out err :
  Method r = "GET" → Path r = "/" → FormValue r "m" = EmptyString →
  homeTemplate x {| Favicon := "favicon.ico";
                    Recents := rev (elems (heap st) (recentBuilds_links st));
                    args_VerifierKey := VerifierKey cfg;
                    GobuildVersion := gobuildVersion cfg |} = (out, Some err) →
  ∃ st' w,
    serveHome x cfg st r new_writer = Returns (st', w) ∧
    final_status w = (if String.eqb out EmptyString then 500 else 200) ∧
    body w = out +:+ errorTemplate x
               ("500 - internal server error - server error: executing template: "
                +:+ Error err).
Proof.
  intros Hm Hp Hf Ht. unfold serveHome. rewrite Hm, Hp, Hf. simpl.
  destruct (HomeProps.landing_spec x cfg st new_writer) as (h2 & -> & _).
  do 2 eexists. split; [reflexivity |].
  unfold render_home. rewrite Ht. cbn [fst snd].
  unfold final_status. rewrite GoproxyProps.failf_status, body_failf.
  rewrite ServeProps.body_io_Copy.
  unfold io_Copy. destruct (String.eqb out EmptyString) eqn:E.
  - split; reflexivity.
  - rewrite HTTPProps.status_Write. split; reflexivity.
Qed.

Lemma serveHome_template_error_witness :
  ∃ st' w,
    serveHome failing_site sample_config sample_state (get "/") new_writer
      = Returns (st', w) ∧
    final_status w = 200 ∧
    body w = "<html>" +:+
             "500 - internal server error - server error: executing template: template: no such field".
Proof.
  apply (serveHome_template_error failing_site sample_config sample_state (get "/")
           "<html>" (errors_New 30 "template: no such field")
           eq_refl eq_refl eq_refl eq_refl).
Defined.

Lemma HasPrefix_inv s c p :
  HasPrefix s (String c p) = true → ∃ s', s = String c s' ∧ HasPrefix s' p = true.
Proof.
  unfold HasPrefix. destruct s as [|d s]; [done |]. cbn [String.prefix].
  destruct (ascii_dec c d) as [-> |]; [eauto | done].
Qed.

Lemma HasPrefix_empty s : HasPrefix s EmptyString = true.
Proof. by destruct s. Qed.

Lemma HasPrefix_cons_same c s p : HasPrefix (String c s) (String c p) = HasPrefix s p.
Proof.
  unfold HasPrefix. cbn [String.prefix]. by destruct (ascii_dec c c).
Qed.

Lemma HasPrefix_app s a b : HasPrefix s (a +:+ b) = true → HasPrefix s a = true.
Proof.
  unfold HasPrefix. revert s. induction a as [|c a IH]; intros s.
  - by destruct s.
  - change (String c a +:+ b) with (String c (a +:+ b)).
    destruct s as [|d s]; [done |]. simpl.
    destruct (ascii_dec c d); [apply IH | done].
Qed.

Lemma routes_elem_of x cfg pat hd :
  (pat, hd) ∈ routes x cfg →
  match hd with
  | HLegacy => pat = "/m/" ∨ pat = "/b/" ∨ pat = "/r/"
  | HTlog => SignerKey cfg ≠ EmptyString ∧ ∃ p, pat = "/tlog" +:+ p
  | _ => True
  end.
Proof.
  unfold routes. rewrite !elem_of_app, !elem_of_cons.
  intros [Hin | [Hin | Hin]].
  - repeat (destruct Hin as [[= -> ->] | Hin]; [done |]). by apply elem_of_nil in Hin.
  - destruct (String.eqb (SignerKey cfg) EmptyString) eqn:E;
      [by apply elem_of_nil in Hin |].
    apply String.eqb_neq in E.
    apply list_elem_of_fmap in Hin as (p & [= -> ->] & _). eauto.
  - repeat (destruct Hin as [[= -> ->] | Hin]; [by eauto |]). by apply elem_of_nil in Hin.
Qed.

(** The pattern under which the mux found the handler. *)
Lemma mux_match_pattern {H} (m : list (string * H)) path hd :
  mux_match m path = Some hd →
  ∃ pat, (pat, hd) ∈ m ∧ HasPrefix path pat = true.
Proof.
  unfold mux_match. destruct (registered m path) as [h|] eqn:Hr.
  - intros [= ->]. exists path. split; [by apply HomeProps.registered_elem_of |].
    unfold HasPrefix. clear. induction path as [|c p IH]; [done |]. simpl.
    by destruct (ascii_dec c c).
  - destruct (longest_prefix m path None) as [[pat h]|] eqn:Hl; [| done].
    simpl. intros [= ->].
    apply HomeProps.longest_prefix_elem_of in Hl as [[=] | [Hin Hp]]. eauto.
Qed.

(** X7: a request handed to a legacy handler is answered, whatever its
    method, with status 307, the state unchanged, and the Location that
    net/http writes for the path without its first two bytes as target;
    the path starts with /m/, /b/ or /r/, so that the slice is in range
    and the target starts with a slash. *)
Theorem legacy_redirect_target x cfg st r :
  mux_Handler (routes x cfg) r = Handler HLegacy →
  ∃ w, ServeHTTP x cfg st r = Returns (st, w) ∧
       final_status w = StatusTemporaryRedirect ∧
       header w !! "Location"
         = Some (redirect_location (net_http x) r (slice_from 2 (Path r))) ∧
       HasPrefix (slice_from 2 (Path r)) "/" = true.
Proof.
  intros Hh. unfold ServeHTTP. rewrite Hh. cbn [run_handler].
  apply HomeProps.mux_Handler_match, mux_match_pattern in Hh as (pat & Hin & Hp).
  apply routes_elem_of in Hin.
  assert (∃ c rest, Path r = String "/" (String c (String "/" rest))) as (c & rest & Hpath).
  { destruct Hin as [-> | [-> | ->]];
      apply HasPrefix_inv in Hp as (s1 & -> & Hp);
      apply HasPrefix_inv in Hp as (s2 & -> & Hp);
      apply HasPrefix_inv in Hp as (s3 & -> & Hp); eauto. }
  assert ((String.length (Path r) <? 2)%nat = false) as -> by (by rewrite Hpath).
  assert (HasPrefix (slice_from 2 (Path r)) "/" = true) as Hpre.
  { rewrite Hpath. cbn [slice_from]. by rewrite HasPrefix_cons_same, HasPrefix_empty. }
  eexists. split; [reflexivity |].
  unfold final_status. rewrite HTTPProps.status_Redirect. split; [done |].
  split; [| done].
  unfold Redirect.
  repeat case_match; rewrite ?HTTPProps.header_Write; unfold WriteHeader; simpl;
    by simplify_map_eq.
Qed.

Lemma legacy_redirect_target_witness :
  ∃ w, ServeHTTP sample_site sample_config sample_state (post "/b/example.com/x/")
         = Returns (sample_state, w) ∧
       final_status w = StatusTemporaryRedirect ∧
       header w !! "Location" = Some "/example.com/x/" ∧
       HasPrefix "/example.com/x/" "/" = true.
Proof.
  apply (legacy_redirect_target sample_site sample_config sample_state
           (post "/b/example.com/x/") eq_refl).
Defined.

(** X8: the handler of the transparency log is reached only when a
    signer key is configured, and only on paths starting with /tlog. *)
Theorem tlog_needs_signer x cfg r :
  mux_Handler (routes x cfg) r = Handler HTlog →
  SignerKey cfg ≠ EmptyString ∧ HasPrefix (Path r) "/tlog" = true.
Proof.
  intros Hh.
  apply HomeProps.mux_Handler_match, mux_match_pattern in Hh as (pat & Hin & Hp).
  apply routes_elem_of in Hin as (Hs & p & ->).
  split; [done |]. by apply HasPrefix_app in Hp.
Qed.

Lemma tlog_needs_signer_witness :
  SignerKey signed_config ≠ EmptyString ∧ HasPrefix "/tlog/latest" "/tlog" = true.
Proof.
  apply (tlog_needs_signer sample_site signed_config (get "/tlog/latest") eq_refl).
Defined.

End HomeExtra.

Module SDKExtra.
Import SDK.

(** X9: [sdkUpdateInstalledList] makes [installedList] the list,
    without repetition, of the installed versions that are not
    supported, and changes nothing else. *)
Theorem sdkUpdateInstalledList_lists s :
  let s1 := sdkUpdateInstalledList s in
  (∀ v, v ∈ installedList s1 ↔ v ∈ installed s ∧ v ∉ supportedList s) ∧
  NoDup (installedList s1) ∧
  installed s1 = installed s ∧ supportedList s1 = supportedList s ∧
  status s1 = status s ∧ disk s1 = disk s.
Proof.
  simpl. split; [| split; [| done]].
  - intros v. rewrite merge_sort_Permutation, list_elem_of_filter, elem_of_elements.
    unfold sdkIsSupported.
    assert (existsb (String.eqb v) (supportedList s) = false ↔ v ∉ supportedList s) as ->;
      [| tauto].
    rewrite <- not_true_iff_false, existsb_exists. split.
    + intros Hn Hin. apply Hn. exists v. split; [by apply list_elem_of_In |].
      by apply String.eqb_eq.
    + intros Hn (v' & Hin & ->%String.eqb_eq). by apply Hn, list_elem_of_In.
  - rewrite merge_sort_Permutation. apply NoDup_filter, NoDup_elements.
Qed.

Lemma time_Sub_small t u : - 2 ^ 63 <= t - u < 2 ^ 63 → time_Sub t u = t - u.
Proof.
  intros H. unfold time_Sub.
  destruct (Z.ltb_spec (t - u) (- 2 ^ 63)); [lia |].
  destruct (Z.leb_spec (2 ^ 63) (t - u)); [lia | done].
Qed.

Lemma install_supported w rel v s :
  supportedList (install w rel v s).1.2 = supportedList s.
Proof. unfold install. by repeat case_match. Qed.

(** X10: [installedSDK] asks the catalog only when more than an hour
    has passed since it last asked.  When it asks, it records the time
    of the request whether the request succeeds or not, and a failed
    request leaves the lists as they were; so any call within the
    following hour asks nothing and returns the same lists. *)
Theorem installedSDK_hourly now ls last s lists last1 s1 tr :
  installedSDK now ls last s = (lists, last1, s1, tr) →
  lists = (supportedList s1, installedList s1) ∧
  (time_Sub now last <= time_Hour → tr = [] ∧ last1 = last ∧ s1 = s) ∧
  (time_Hour < time_Sub now last →
   tr = [EvListSupported] ∧ last1 = now ∧
   (∀ err, ls = Err err → s1 = s) ∧
   ∀ now' ls', now <= now' <= now + time_Hour →
     installedSDK now' ls' last1 s1 = (lists, last1, s1, [])).
Proof.
  unfold installedSDK.
  destruct (Z.ltb_spec time_Hour (time_Sub now last)) as [Hlt | Hle].
  - assert (∀ now' ls' s', now <= now' <= now + time_Hour →
            installedSDK now' ls' now s' = ((supportedList s', installedList s'), now, s', []))
      as Hnext.
    { intros now' ls' s' Hn. unfold installedSDK.
      rewrite time_Sub_small by (unfold time_Hour in *; lia).
      destruct (Z.ltb_spec time_Hour (now' - now)); [lia | done]. }
    destruct ls as [rels|err]; intros [= <- <- <- <-].
    + split; [done |]. split; [lia |]. intros _. repeat split; [done |].
      intros now' ls' Hn. by apply Hnext.
    + split; [done |]. split; [lia |]. intros _. repeat split.
      intros now' ls' Hn. by apply Hnext.
  - intros [= <- <- <- <-]. split; [done |]. split; [done | lia].
Qed.

Lemma installedSDK_hourly_witness :
  installedSDK 7200000000001 (Err (errors_New 7 "connection refused"))
      3600000000001 (initSDK ["go1.21.0"]) =
    (([], ["go1.21.0"]), 3600000000001, initSDK ["go1.21.0"], []).
Proof.
  destruct (installedSDK_hourly 3600000000001 (Err (errors_New 7 "connection refused"))
              0 (initSDK ["go1.21.0"]) _ _ _ _ eq_refl) as (_ & _ & H).
  destruct H as (_ & _ & _ & Hnext); [reflexivity |].
  apply Hnext. unfold time_Hour. lia.
Defined.

(** X11: a call of [ensureSDK] only adds knowledge: installed versions
    stay installed, directories stay on disk, an entry of [status] once
    written is never changed, and the list of supported versions is
    not touched. *)
Theorem ensureSDK_monotone w v s r s1 tr :
  ensureSDK w v s = (r, s1, tr) →
  installed s ⊆ installed s1 ∧ disk s ⊆ disk s1 ∧
  (∀ v' x, status s !! v' = Some x → status s1 !! v' = Some x) ∧
  supportedList s1 = supportedList s.
Proof.
  intros H. apply SDKProps.ensureSDK_inv in H.
  inversion H as [ | | | err e ? ? Hst ? He
                 | rels rel r' s1' tr' ? ? Hst ? ? Hi | ]; subst; try done.
  - repeat split; try done. intros v' x Hx. simpl.
    rewrite lookup_insert_ne; [done | congruence].
  - pose proof (install_supported w rel v s) as Hsup. rewrite Hi in Hsup.
    apply SDKProps.install_cases in Hi
      as [_ [(_ & Hin & Hd & Hs) | (e & _ & _ & _ & ->)]].
    + rewrite Hin, Hd, Hs. repeat split; [set_solver | set_solver | | done].
      intros v' x Hx. rewrite lookup_insert_ne; [done | congruence].
    + repeat split; try done. intros v' x Hx. simpl.
      rewrite lookup_insert_ne; [done | congruence].
Qed.

Lemma ensureSDK_monotone_witness :
  installed (initSDK ["go1.20.1"]) ⊆
    installed (ensureSDK world_up "go1.21.0" (initSDK ["go1.20.1"])).1.2.
Proof.
  destruct (ensureSDK world_up "go1.21.0" (initSDK ["go1.20.1"])) as [[r s1] tr] eqn:E.
  apply (ensureSDK_monotone _ _ _ _ _ _ E).
Defined.

Lemma install_trace w rel v s r s1 tr :
  install w rel v s = (r, s1, tr) →
  (∀ d, EvRemoveAll d ∈ tr → TempDir w = Ok d) ∧
  (∀ f d, EvFetch f d ∈ tr → TempDir w = Ok d ∧ last tr = Some (EvRemoveAll d)) ∧
  (∀ d v', EvRename d v' ∈ tr → v' = v ∧ ∃ f, Fetch w f d = None).
Proof.
  unfold install.
  destruct (FindFile w rel) as [f|] eqn:Hf.
  2:{ intros [= <- <- <-]. repeat split; intros; set_solver. }
  destruct (TempDir w) as [tmpdir|] eqn:Ht.
  2:{ intros [= <- <- <-]. repeat split; intros; set_solver. }
  destruct (Fetch w f tmpdir) eqn:Hfe.
  { intros [= <- <- <-]. repeat split; intros; set_solver. }
  destruct (Rename w tmpdir v); intros [= <- <- <-];
    (split; [| split]); intros; set_solver.
Qed.

(** X12: the temporary directory never outlives the call.  Whenever a
    download was started into a directory, the last thing the call
    does is to remove that directory; nothing but the directory made
    by this call is ever removed; and a rename is only attempted, to
    the version asked for, after the download succeeded. *)
Theorem ensureSDK_removes_tmpdir w v s r s1 tr :
  ensureSDK w v s = (r, s1, tr) →
  (∀ d, EvRemoveAll d ∈ tr → TempDir w = Ok d) ∧
  (∀ f d, EvFetch f d ∈ tr → TempDir w = Ok d ∧ last tr = Some (EvRemoveAll d)) ∧
  (∀ d v', EvRename d v' ∈ tr → v' = v ∧ ∃ f, Fetch w f d = None).
Proof.
  intros H. apply SDKProps.ensureSDK_inv in H.
  inversion H as [ | | | | rels rel r' s1' tr' ? ? ? ? ? Hi | ]; subst;
    try (repeat split; intros; set_solver).
  apply install_trace in Hi as (Hr & Hf & Hn).
  split; [| split].
  - intros d Hd. apply Hr. set_solver.
  - intros f d Hd. destruct (Hf f d) as [Ht Hl]; [set_solver |].
    split; [done |]. destruct tr' as [|e tr']; [done |]. by rewrite last_cons, Hl.
  - intros d v' Hd. apply Hn. set_solver.
Qed.

Lemma ensureSDK_removes_tmpdir_witness :
  last (ensureSDK world_up "go1.21.0" (initSDK [])).2 =
    Some (EvRemoveAll "tmp-install123456").
Proof.
  destruct (ensureSDK world_up "go1.21.0" (initSDK [])) as [[r s1] tr] eqn:E.
  pose proof (ensureSDK_removes_tmpdir _ _ _ _ _ _ E) as (_ & Hf & _).
  apply (Hf "go1.21.0.linux-amd64.tar.gz").
  vm_compute in E. injection E as _ _ <-. set_solver.
Defined.

(** X13: from a state in which a nil entry of [status] stands only for
    an installed version (as after [initSDK]), that remains so, and
    [ensureSDK] returns nil exactly when the version passes the
    syntactic check and is in the installed set after the call. *)
Theorem ensureSDK_nil_iff_installed w v s r s1 tr :
  status_sound s →
  ensureSDK w v s = (r, s1, tr) →
  status_sound s1 ∧ (r = None ↔ checkGoversion v = None ∧ v ∈ installed s1).
Proof.
  intros Hsound H. apply SDKProps.ensureSDK_inv in H.
  inversion H as [ e Hc | Hc Hin | err Hc Hni Hst | err e Hc Hni Hst Hl He
                 | rels rel r' s1' tr' Hc Hni Hst Hl Hf Hi | rels Hc Hni Hst Hl Hf ]; subst.
  - split; [done |]. split; [done | intros [? _]; congruence].
  - done.
  - split; [done |].
    match goal with
    | Hs : status _ !! _ = Some ?x |- _ =>
        destruct x as [e|]; [| by apply Hsound in Hs]
    end.
    split; [done | by intros [_ ?]].
  - split.
    + intros v'. simpl. destruct (decide (v = v')) as [-> | Hne].
      * by rewrite lookup_insert_eq.
      * rewrite lookup_insert_ne by done. apply Hsound.
    + split; [done | by intros [_ ?]].
  - apply SDKProps.install_cases in Hi
      as [_ [(-> & Hin & Hd & Hs) | (e & -> & _ & _ & ->)]].
    + split.
      * intros v'. rewrite Hs, Hin. destruct (decide (v = v')) as [-> | Hne].
        -- intros _. set_solver.
        -- rewrite lookup_insert_ne by done. intros ?%Hsound. set_solver.
      * split; [| done]. intros _. split; [done |]. rewrite Hin. set_solver.
    + split.
      * intros v'. simpl. destruct (decide (v = v')) as [-> | Hne].
        -- by rewrite lookup_insert_eq.
        -- rewrite lookup_insert_ne by done. apply Hsound.
      * split; [done | by intros [_ ?]].
  - split; [done |]. split; [done | by intros [_ ?]].
Qed.

Lemma initSDK_status_sound entries : status_sound (initSDK entries).
Proof. intros v. simpl. by rewrite lookup_empty. Qed.

Lemma ensureSDK_nil_iff_installed_witness :
  "go1.21.0" ∈ installed (ensureSDK world_up "go1.21.0" (initSDK [])).1.2.
Proof.
  destruct (ensureSDK world_up "go1.21.0" (initSDK [])) as [[r s1] tr] eqn:E.
  pose proof (ensureSDK_nil_iff_installed _ _ _ _ _ _ (initSDK_status_sound []) E)
    as (_ & Hiff).
  apply Hiff. vm_compute in E. by injection E as <- _ _.
Defined.

(** X14: how a fresh failure of [ensureSDK] (no remembered entry for
    the version) is rendered by [failf]: status 500 exactly when the
    call went beyond the listing of the catalog, that is for a failure
    to find, fetch or install the release; a refused identifier, an
    unreachable catalog and a version missing from it give 400. *)
Theorem ensureSDK_error_status w v s e s1 tr errorTemplate msg :
  status s !! v = None →
  ensureSDK w v s = (Some e, s1, tr) →
  HTTP.final_status (Serve.failf errorTemplate msg [e] HTTP.new_writer) =
    (if (2 <=? length tr)%nat then 500 else 400).
Proof.
  intros Hst H. unfold HTTP.final_status. rewrite GoproxyProps.failf_status.
  cbn [HTTP.status HTTP.new_writer errors_Is default]. rewrite orb_false_r.
  apply SDKProps.ensureSDK_inv in H.
  inversion H as [ e' Hc | | err Hc Hni Hst' | err e' Hc Hni Hst' Hl He
                 | rels rel r' s1' tr' Hc Hni Hst' Hl Hf Hi | rels Hc Hni Hst' Hl Hf ]; subst.
  - apply SDKProps.checkGoversion_bad in Hc as [_ Hc].
    apply orb_false_iff in Hc as [_ ->]. done.
  - congruence.
  - done.
  - apply SDKProps.install_cases in Hi as [Hne [(? & _) | (e' & [= <-] & -> & _)]]; [done |].
    destruct tr' as [|? ?]; done.
  - done.
Qed.

Lemma ensureSDK_error_status_witness :
  HTTP.final_status
    (Serve.failf (λ m, m) "ensuring toolchain"
       [fmt_Errorf "remote: listing known releases: connection refused" [errRemote]]
       HTTP.new_writer) = 400.
Proof.
  apply (ensureSDK_error_status world_down "go1.21.0" (initSDK []) _ _ [EvListAll]
           (λ m, m) "ensuring toolchain" eq_refl eq_refl).
Defined.

(** X15: after [initSDK], a toolchain directory found at start-up whose
    name passes the syntactic check is ensured without any call to the
    catalog or the file system, while the first call for any other
    acceptable version starts by listing the catalog. *)
Theorem initSDK_then_ensureSDK entries w v :
  checkGoversion v = None →
  (v ∈ entries → ensureSDK w v (initSDK entries) = (None, initSDK entries, [])) ∧
  (v ∉ entries → ∃ r s1 tr, ensureSDK w v (initSDK entries) = (r, s1, EvListAll :: tr)).
Proof.
  intros Hc.
  assert (v ∈ installed (initSDK entries) ↔ v ∈ entries) as Hin.
  { simpl. rewrite elem_of_list_to_set, list_elem_of_filter.
    apply SDKProps.checkGoversion_None_iff in Hc as [Hgo _]. tauto. }
  split; intros Hv.
  - apply SDKProps.ensureSDK_installed; [done | by apply Hin].
  - apply SDKProps.ensureSDK_lists; [done | by rewrite Hin |]. simpl. apply lookup_empty.
Qed.

Lemma initSDK_then_ensureSDK_witness :
  ensureSDK world_down "go1.21.0" (initSDK ["go1.21.0"; "tmp-install42"]) =
    (None, initSDK ["go1.21.0"; "tmp-install42"], []).
Proof.
  apply (initSDK_then_ensureSDK ["go1.21.0"; "tmp-install42"] world_down "go1.21.0" eq_refl).
  apply list_elem_of_here.
Defined.

(** A nil result from a sound state: the version is installed. *)
Lemma ensureSDK_nil_installed w v s s1 tr :
  status_sound s → ensureSDK w v s = (None, s1, tr) → v ∈ installed s1.
Proof.
  intros Hsound H. apply SDKProps.ensureSDK_inv in H.
  inversion H as [ | | Hx Hc Hni Hst | | rels rel r' s1' tr' Hc Hni Hst Hl Hf Hi | ];
    subst; try done.
  - by apply Hsound.
  - apply SDKProps.install_cases in Hi as [_ [(_ & -> & _) | (e & [=] & _)]]. set_solver.
Qed.

Lemma installedSDK_frame now ls last s :
  installed (installedSDK now ls last s).1.2 = installed s ∧
  status (installedSDK now ls last s).1.2 = status s.
Proof. unfold installedSDK. by repeat case_match. Qed.

(** X16: [ensureMostRecentSDK] returns a version only together with a
    nil error, and then it is the first of the supported versions as
    [installedSDK] reports them, it passes the syntactic check and, from
    a sound state, it is installed.  With no supported version known
    the error is a server error and no toolchain is looked for. *)
Theorem ensureMostRecentSDK_result now ls w last s v err last1 s2 tr1 tr2 :
  ensureMostRecentSDK now ls w last s = ((v, err), last1, s2, tr1, tr2) →
  (err ≠ None → v = EmptyString) ∧
  (err = None →
   hd_error (installedSDK now ls last s).1.1.1.1 = Some v ∧
   checkGoversion v = None ∧
   (status_sound s → v ∈ installed s2)) ∧
  ((installedSDK now ls last s).1.1.1.1 = [] →
   tr2 = [] ∧ ∃ e, err = Some e ∧ errors_Is e id_errServer = true).
Proof.
  unfold ensureMostRecentSDK.
  pose proof (installedSDK_frame now ls last s) as [Hfi Hfs].
  destruct (installedSDK now ls last s) as [[[lists last'] s1'] tr1'] eqn:Hi.
  simpl in Hfi, Hfs. cbn [fst snd].
  destruct (lists.1) as [|v0 rest] eqn:Hl.
  - intros [= <- <- <- <- <- <-]. split; [done |]. split; [done |].
    intros _. split; [done |]. eexists. split; [done | done].
  - destruct (ensureSDK w v0 s1') as [[r s2'] tr2'] eqn:He.
    destruct r as [e|]; intros [= <- <- <- <- <- <-].
    + split; [done |]. split; [done | done].
    + split; [done |]. split; [| done]. intros _. split; [done |].
      assert (status_sound s → status_sound s1') as Hsound.
      { intros Hs v'. rewrite Hfs, Hfi. apply Hs. }
      split.
      * apply SDKProps.ensureSDK_inv in He. by inversion He.
      * intros Hs. by apply (ensureSDK_nil_installed _ _ _ _ _ (Hsound Hs) He).
Qed.

Lemma ensureMostRecentSDK_result_witness :
  "go1.21.0" ∈ installed
    (ensureMostRecentSDK 3600000000001
       (Ok [ {| Version := "go1.21.0"; Files := [] |}; {| Version := "go1.20.7"; Files := [] |} ])
       world_up 0 (initSDK [])).1.1.2.
Proof.
  destruct (ensureMostRecentSDK 3600000000001
       (Ok [ {| Version := "go1.21.0"; Files := [] |}; {| Version := "go1.20.7"; Files := [] |} ])
       world_up 0 (initSDK [])) as [[[[[v err] last1] s2] tr1] tr2] eqn:E.
  pose proof (ensureMostRecentSDK_result _ _ _ _ _ _ _ _ _ _ _ E) as (_ & H & _).
  assert (err = None ∧ v = "go1.21.0") as [Herr ->].
  { vm_compute in E. by injection E as <- <- _ _ _ _. }
  destruct (H Herr) as (_ & _ & Hin). apply Hin, initSDK_status_sound.
Defined.

End SDKExtra.

Module TargetsExtra.
Import Targets.

Lemma wrap64_range z : int64_range (wrap64 z).
Proof.
  unfold int64_range, wrap64.
  pose proof (Z.mod_pos_bound (z + 2 ^ 63) (2 ^ 64)). lia.
Qed.

Lemma wrap64_add a b : wrap64 (wrap64 a + b) = wrap64 (a + b).
Proof.
  unfold wrap64. f_equal.
  replace ((a + 2 ^ 63) mod 2 ^ 64 - 2 ^ 63 + b + 2 ^ 63)
    with ((a + 2 ^ 63) mod 2 ^ 64 + b) by lia.
  rewrite Zplus_mod_idemp_l. f_equal. lia.
Qed.

Lemma increase_use sort_Slice tgt t x :
  use_of (use (increase sort_Slice tgt t).1) x =
    if decide (tgt = x) then add64 (use_of (use t) x) 1 else use_of (use t) x.
Proof.
  unfold increase. case_match; simpl; unfold use_of;
    (destruct (decide (tgt = x)) as [-> | Hne];
     [by rewrite lookup_insert_eq | by rewrite lookup_insert_ne]).
Qed.

Lemma increase_totalUse sort_Slice tgt t :
  totalUse (increase sort_Slice tgt t).1 = add64 (totalUse t) 1.
Proof. unfold increase. by case_match. Qed.

(** X17: after any run of observations the total is the old total plus
    their number, and the count of each target its old count plus the
    number of its observations, in 64-bit arithmetic. *)
Theorem observe_counts sort_Slice obs t x :
  int64_range (totalUse t) → int64_range (use_of (use t) x) →
  totalUse (observe sort_Slice obs t) = wrap64 (totalUse t + Z.of_nat (length obs)) ∧
  use_of (use (observe sort_Slice obs t)) x = wrap64 (use_of (use t) x + observations x obs).
Proof.
  revert t. induction obs as [|o obs IH]; intros t Ht Hu.
  - unfold observations. simpl. rewrite !Z.add_0_r.
    by rewrite !SumStateProps.wrap64_representable.
  - cbn [observe foldl]. fold (observe sort_Slice obs (increase sort_Slice o t).1).
    destruct (IH (increase sort_Slice o t).1) as [IHt IHu].
    + rewrite increase_totalUse. apply wrap64_range.
    + rewrite increase_use. case_decide; [apply wrap64_range | done].
    + rewrite IHt, IHu, increase_totalUse, increase_use. unfold add64.
      split.
      * rewrite wrap64_add. f_equal. simpl length. lia.
      * unfold observations. rewrite filter_cons.
        destruct (decide (o = x)) as [-> | Hne].
        -- rewrite wrap64_add. f_equal. simpl length. lia.
        -- done.
Qed.

Lemma observe_counts_witness :
  totalUse (observe merge_sort_Slice ["linux/amd64"; "linux/arm64"; "linux/amd64"] targets)
    = wrap64 (0 + 3) ∧
  use_of (use (observe merge_sort_Slice ["linux/amd64"; "linux/arm64"; "linux/amd64"] targets))
         "linux/amd64"
    = wrap64 (0 + observations "linux/amd64" ["linux/amd64"; "linux/arm64"; "linux/amd64"]).
Proof.
  apply (observe_counts merge_sort_Slice ["linux/amd64"; "linux/arm64"; "linux/amd64"]
           targets "linux/amd64"); unfold int64_range; vm_compute; split; congruence.
Defined.

Lemma increase_valid sort_Slice tgt t x :
  valid (increase sort_Slice tgt t).1 x = true ↔ valid t x = true ∨ x = tgt.
Proof.
  unfold valid. rewrite !bool_decide_eq_true.
  assert (use (increase sort_Slice tgt t).1 =
            <[tgt := add64 (use_of (use t) tgt) 1]> (use t)) as ->
    by (unfold increase; by case_match).
  rewrite lookup_insert_is_Some. split.
  - intros [-> | [_ ?]]; auto.
  - intros [? | ->]; [| by left]. destruct (decide (tgt = x)); auto.
Qed.

Lemma init_valid (l : list target) x :
  is_Some (foldr (λ t m, <[osarch t := 0]> m) (∅ : gmap string Z) l !! x) ↔
  x ∈ osarch <$> l.
Proof.
  induction l as [|t l IH]; simpl.
  - rewrite lookup_empty, elem_of_nil. split; [by intros [? ?] | done].
  - rewrite lookup_insert_is_Some, elem_of_cons, IH.
    split; [intros [-> | [_ ?]]; auto |].
    intros [-> | ?]; [by left |]. destruct (decide (osarch t = x)); auto.
Qed.

(** X18: a target is valid exactly when it was valid before or has been
    observed since: [increase] creates the entry of a target it does
    not know.  From the initial state, the valid targets are those of
    the built-in list and those observed. *)
Theorem observe_valid sort_Slice obs t x :
  (valid (observe sort_Slice obs t) x = true ↔ valid t x = true ∨ x ∈ obs) ∧
  (valid (observe sort_Slice obs targets) x = true ↔
   x ∈ osarch <$> targets_list ∨ x ∈ obs).
Proof.
  assert (∀ t, valid (observe sort_Slice obs t) x = true ↔ valid t x = true ∨ x ∈ obs)
    as H.
  { clear t. induction obs as [|o obs IH]; intros t.
    - simpl. rewrite elem_of_nil. tauto.
    - cbn [observe foldl]. fold (observe sort_Slice obs (increase sort_Slice o t).1).
      rewrite IH, increase_valid, elem_of_cons. tauto. }
  split; [apply H |]. rewrite H.
  unfold valid at 1. rewrite bool_decide_eq_true.
  unfold targets. cbn [use]. by rewrite init_valid.
Qed.

(** X19: when [sort.Slice] rearranges its input, no run of
    observations loses or repeats a target of the list returned by
    [get]. *)
Theorem observe_keeps_targets sort_Slice obs t :
  (∀ lt l, sort_Slice lt l ≡ₚ l) →
  get (observe sort_Slice obs t) ≡ₚ get t.
Proof.
  intros Hperm. unfold get. revert t. induction obs as [|o obs IH]; intros t; [done |].
  cbn [observe foldl]. fold (observe sort_Slice obs (increase sort_Slice o t).1).
  rewrite IH. unfold increase. case_match; simpl; [apply Hperm | done].
Qed.

Lemma observe_keeps_targets_witness :
  get (observe merge_sort_Slice ["linux/amd64"; "plan9/arm"] targets) ≡ₚ get targets.
Proof.
  apply (observe_keeps_targets merge_sort_Slice ["linux/amd64"; "plan9/arm"] targets).
  intros lt l. apply merge_sort_Permutation.
Defined.

End TargetsExtra.

Module GoproxyExtra.
Import HTTP Serve Goproxy.

(** X20: [resolveModuleLatest] returns a version exactly when the
    module path escapes, the request to [goproxy + path + "/@latest"]
    is answered with status 200 and the body decodes to a version that
    is not empty; it never returns an empty version without error. *)
Theorem resolveModuleLatest_ok w goproxy mod_ info :
  resolveModuleLatest w goproxy mod_ = Ok info ↔
  ∃ modPath resp,
    EscapePath w mod_ = Ok modPath ∧
    NewRequest w (goproxy +:+ modPath +:+ "/@latest") = None ∧
    Do w (goproxy +:+ modPath +:+ "/@latest") = Ok resp ∧
    StatusCode resp = 200 ∧
    Decode w resp = Ok info ∧
    Version info ≠ EmptyString.
Proof.
  unfold resolveModuleLatest. split.
  - destruct (EscapePath w mod_) as [modPath|] eqn:He; [| done].
    destruct (NewRequest w _) eqn:Hn; [done |].
    destruct (Do w _) as [resp|] eqn:Hd; [| done].
    destruct (StatusCode resp =? 200) eqn:Hs; [| done]. apply Z.eqb_eq in Hs. simpl.
    destruct (Decode w resp) as [info'|] eqn:Hdec; [| done].
    destruct (String.eqb (Version info') EmptyString) eqn:Hv; [done |].
    apply String.eqb_neq in Hv. intros [= <-]. eauto 10.
  - intros (modPath & resp & -> & -> & -> & Hs & -> & Hv).
    apply Z.eqb_eq in Hs. rewrite Hs. simpl.
    apply String.eqb_neq in Hv. by rewrite Hv.
Qed.

(** X21: the errors of [resolveModuleLatest] by kind, as [failf] renders
    them: status 500 for an error wrapping [errServer], 400 otherwise.
    The error wraps [errServer] exactly when the request could not be
    prepared or sent, and [errRemote] exactly when a response arrived;
    for a module path that does not escape it wraps neither. *)
Theorem resolveModuleLatest_error_status w goproxy mod_ e errorTemplate msg :
  resolveModuleLatest w goproxy mod_ = Err e →
  final_status (failf errorTemplate msg [e] new_writer) =
    (if errors_Is e id_errServer then 500 else 400) ∧
  (errors_Is e id_errServer = true ↔
   ∃ modPath, EscapePath w mod_ = Ok modPath ∧
     (NewRequest w (goproxy +:+ modPath +:+ "/@latest") ≠ None ∨
      ∃ err, Do w (goproxy +:+ modPath +:+ "/@latest") = Err err)) ∧
  (errors_Is e id_errRemote = true ↔
   ∃ modPath resp, EscapePath w mod_ = Ok modPath ∧
     NewRequest w (goproxy +:+ modPath +:+ "/@latest") = None ∧
     Do w (goproxy +:+ modPath +:+ "/@latest") = Ok resp).
Proof.
  intros H. split.
  { unfold final_status. rewrite GoproxyProps.failf_status.
    cbn [status new_writer errors_Is default]. by rewrite orb_false_r. }
  revert H. unfold resolveModuleLatest.
  destruct (EscapePath w mod_) as [modPath|err] eqn:He.
  2:{ intros [= <-]. simpl. split.
      - split; [done | by intros (? & [=] & _)].
      - split; [done | by intros (? & ? & [=] & _)]. }
  destruct (NewRequest w _) as [err|] eqn:Hn.
  { intros [= <-]. simpl. split.
    - split; [| done]. intros _. exists modPath. split; [done |]. left. congruence.
    - split; [done |]. intros (? & ? & [= <-] & Hn' & _). congruence. }
  destruct (Do w _) as [resp|err] eqn:Hd.
  2:{ intros [= <-]. simpl. split.
      - split; [| done]. intros _. exists modPath. split; [done |]. right. eauto.
      - split; [done |]. intros (? & ? & [= <-] & _ & Hd'). congruence. }
  assert (∀ m : string,
          (errors_Is (fmt_Errorf m [errRemote]) id_errServer = true ↔
           ∃ modPath0, Ok modPath = Ok modPath0 ∧
             (NewRequest w (goproxy +:+ modPath0 +:+ "/@latest") ≠ None ∨
              ∃ err, Do w (goproxy +:+ modPath0 +:+ "/@latest") = Err err)) ∧
          (errors_Is (fmt_Errorf m [errRemote]) id_errRemote = true ↔
           ∃ modPath0 resp0, Ok modPath = Ok modPath0 ∧
             NewRequest w (goproxy +:+ modPath0 +:+ "/@latest") = None ∧
             Do w (goproxy +:+ modPath0 +:+ "/@latest") = Ok resp0)) as Hremote.
  { intros m. simpl. split.
    - split; [done |]. intros (? & [= <-] & [? | [? ?]]); congruence.
    - split; [| done]. intros _. eauto. }
  destruct (StatusCode resp =? 200); simpl.
  - destruct (Decode w resp) as [info|err].
    + destruct (String.eqb (Version info) EmptyString); [| done].
      intros [= <-]. apply Hremote.
    + intros [= <-]. apply Hremote.
  - intros [= <-]. apply Hremote.
Qed.

Lemma resolveModuleLatest_error_status_witness :
  match resolveModuleLatest world_404 "https://proxy.golang.org/" "example.com/x" with
  | Err e => errors_Is e id_errRemote = true
  | Ok _ => False
  end.
Proof.
  destruct (resolveModuleLatest world_404 "https://proxy.golang.org/" "example.com/x")
    as [info|e] eqn:He; [vm_compute in He; discriminate |].
  apply (proj2 (proj2 (resolveModuleLatest_error_status world_404
           "https://proxy.golang.org/" "example.com/x" e (λ m, m) "latest" He))).
  by eexists _, _.
Defined.

End GoproxyExtra.

Module SumStateExtra.
Import Serve SumState.

Lemma first_mismatch_None_iff hashes buf : ∀ i,
  first_mismatch i hashes buf = None ↔
  ∀ k h, hashes !! k = Some h → String.substring ((i + k) * 32) 32 buf = h.
Proof.
  induction hashes as [|h0 hashes IH]; intros i; [done |].
  simpl. destruct (String.eqb h0 _) eqn:E.
  - apply String.eqb_eq in E. rewrite IH. split.
    + intros H [|k] h Hk; simpl in Hk.
      * injection Hk as <-. by rewrite Nat.add_0_r.
      * replace (i + S k)%nat with (S i + k)%nat by lia. by apply H.
    + intros H k h Hk. replace (S i + k)%nat with (i + S k)%nat by lia. by apply H.
  - apply String.eqb_neq in E. split; [done |]. intros H. exfalso. apply E.
    symmetry. rewrite <- (Nat.add_0_r i). by apply H.
Qed.

Lemma verify_artifact_ok_iff w n last rec :
  verify_artifact w n last rec = (n, None) ↔
  ∃ rbuf f gzr,
    ReadFile w (filepath_Join (storeDir w rec) "recordnumber") = Ok rbuf ∧
    ParseInt rbuf = Some last ∧
    Open w (filepath_Join (storeDir w rec) "binary.gz") = Ok f ∧
    NewReader w (data f) = Ok gzr ∧
    read_err gzr = None ∧
    "0" +:+ EncodeToString w (String.substring 0 20 (sha256_Sum w (plain gzr)))
      = record_Sum w rec ∧
    close_err f = None.
Proof.
  unfold verify_artifact, errorf. split.
  - destruct (ReadFile w _) as [buf|] eqn:Hrf; [| done].
    destruct (ParseInt buf) as [num|] eqn:Hpi; [| done].
    destruct (num =? last) eqn:Hnum; [| done]. apply Z.eqb_eq in Hnum as ->. cbn [negb].
    destruct (Open w _) as [f|] eqn:Hop; [| done].
    destruct (NewReader w _) as [gzr|] eqn:Hnr; [| done].
    destruct (read_err gzr) eqn:Hre; [done |].
    match goal with
    | |- context [String.eqb ?a ?b] => destruct (String.eqb a b) eqn:Hsum; [| done]
    end.
    apply String.eqb_eq in Hsum. cbn [negb].
    destruct (close_err f) eqn:Hcl; [done |].
    intros _. eauto 10.
  - intros (rbuf & f & gzr & -> & -> & -> & -> & -> & Hsum & ->).
    rewrite Z.eqb_refl. cbn [negb]. rewrite Hsum, String.eqb_refl. done.
Qed.

(** X22: [verifySumState] returns the count without error exactly when
    [treeSize] returns it, the hashes file has the size computed from
    it and, unless the count is zero, every step of the verification of
    the last record succeeds: reading it, computing and comparing its
    hashes, parsing it, reading its record number, and opening,
    decompressing, hashing and closing its binary. *)
Theorem verifySumState_success_iff w n :
  verifySumState w = Returns (n, None) ↔
  treeSize w = Ok n ∧
  Stat (hashesFile w) = Ok (mul64 (StoredHashCount w n) HashSize) ∧
  (n ≠ 0 → last_record_verified w n).
Proof.
  split.
  - intros H.
    apply SumStateProps.verifySumState_ok in H as (n' & Ht & <- & Hs & Hlast).
    split; [done |]. split; [done |]. intros Hn.
    destruct (Hlast Hn) as (records0 & rest & hashes & buf & rec & Hr & Hh & Hra & Hb & Hp & Hv).
    apply verify_artifact_ok_iff in Hv
      as (rbuf & f & gzr & Hrf & Hpi & Hop & Hnr & Hre & Hsum & Hcl).
    by exists records0, rest, hashes, buf, rec, rbuf, f, gzr.
  - intros (Ht & Hs & Hlast). unfold verifySumState.
    rewrite Ht, Hs, Z.eqb_refl. cbn [negb].
    destruct (n =? 0) eqn:Hn; [by apply Z.eqb_eq in Hn as -> |].
    apply Z.eqb_neq in Hn.
    destruct (Hlast Hn) as (records0 & rest & hashes & buf & rec & rbuf & f & gzr &
      Hr & Hh & Hra & Hb & Hp & Hrf & Hpi & Hop & Hnr & Hre & Hsum & Hcl).
    rewrite Hr, Hh, Hra, Hp.
    assert (first_mismatch 0 hashes buf = None) as -> by (by apply first_mismatch_None_iff).
    f_equal. apply verify_artifact_ok_iff. by exists rbuf, f, gzr.
Qed.

(** X23: [verifySumState] panics exactly when the size of the hashes
    file fits a count that is not zero and [ReadRecords] returns
    neither an error nor a record. *)
Theorem verifySumState_panics_iff w :
  verifySumState w = Panics ↔
  ∃ n, treeSize w = Ok n ∧ n ≠ 0 ∧
       Stat (hashesFile w) = Ok (mul64 (StoredHashCount w n) HashSize) ∧
       ReadRecords w (sub64 n 1) 1 = Ok [].
Proof.
  unfold verifySumState, errorf. split.
  - destruct (treeSize w) as [n|] eqn:Ht; [| done].
    destruct (Stat (hashesFile w)) as [size|] eqn:Hs; [| done].
    destruct (mul64 _ _ =? size) eqn:Hsz; [| done]. apply Z.eqb_eq in Hsz. cbn [negb].
    destruct (n =? 0) eqn:Hn; [done |]. apply Z.eqb_neq in Hn.
    destruct (ReadRecords w _ 1) as [[|records0 rest]|] eqn:Hr; [| | done].
    + intros _. exists n. by rewrite Hsz.
    + repeat case_match; done.
  - intros (n & -> & Hn & -> & ->). rewrite Z.eqb_refl. cbn [negb].
    apply Z.eqb_neq in Hn. by rewrite Hn.
Qed.

Lemma parse_digits_all_digits s : ∀ acc z,
  parse_digits acc s = Some z → all_digits s = true.
Proof.
  induction s as [|c s IH]; intros acc z; [done |]. simpl.
  destruct (digit_value c); [apply IH | done].
Qed.

Lemma ParseInt_digits s z :
  ParseInt s = Some z →
  unsigned_part s ≠ EmptyString ∧ all_digits (unsigned_part s) = true.
Proof.
  unfold ParseInt, unsigned_part. destruct s as [|c s]; [done |].
  rewrite (orb_comm (Ascii.eqb c "+")) at 1.
  assert (Ascii.eqb c "-" || Ascii.eqb c "+" = Ascii.eqb c "+" || Ascii.eqb c "-") as ->
    by apply orb_comm.
  destruct (Ascii.eqb c "+" || Ascii.eqb c "-");
    unfold ParseUint_digits;
    [destruct s as [|d s]; [done |] |];
    destruct (parse_digits 0 _) eqn:Hp; try done;
    intros _; (split; [done |]); by eapply parse_digits_all_digits.
Qed.

(** X24: when [verifySumState] accepts a log that is not empty, the
    recordnumber file of its last record holds an optional sign
    followed by one decimal digit or more and nothing else; a file
    ending in a newline is refused. *)
Theorem verifySumState_recordnumber_format w n :
  verifySumState w = Returns (n, None) → n ≠ 0 →
  ∃ records0 rest rec rbuf,
    ReadRecords w (sub64 n 1) 1 = Ok (records0 :: rest) ∧
    parseRecord w records0 = Ok rec ∧
    ReadFile w (filepath_Join (storeDir w rec) "recordnumber") = Ok rbuf ∧
    unsigned_part rbuf ≠ EmptyString ∧
    all_digits (unsigned_part rbuf) = true.
Proof.
  intros H Hn.
  apply SumStateProps.verifySumState_ok in H as (n' & Ht & <- & Hs & Hlast).
  destruct (Hlast Hn) as (records0 & rest & hashes & buf & rec & Hr & Hh & Hra & Hb & Hp & Hv).
  apply verify_artifact_ok_iff in Hv
    as (rbuf & f & gzr & Hrf & Hpi & Hop & Hnr & Hre & Hsum & Hcl).
  apply ParseInt_digits in Hpi as [? ?].
  by exists records0, rest, rec, rbuf.
Qed.

Lemma verifySumState_recordnumber_format_witness :
  ∃ records0 rest rec rbuf,
    ReadRecords world_one (sub64 1 1) 1 = Ok (records0 :: rest) ∧
    parseRecord world_one records0 = Ok rec ∧
    ReadFile world_one (filepath_Join (storeDir world_one rec) "recordnumber") = Ok rbuf ∧
    unsigned_part rbuf ≠ EmptyString ∧
    all_digits (unsigned_part rbuf) = true.
Proof.
  apply (verifySumState_recordnumber_format world_one 1 eq_refl). discriminate.
Defined.

Example verifySumState_newline :
  ∃ e, verifySumState world_newline = Returns (-1, Some e).
Proof. eexists. reflexivity. Qed.

End SumStateExtra.
